(** * Remote-command gateway: command policy, SSH session executor, execute endpoint

    A shallow embedding of [security.py], [config.py], [ssh_manager.py] and the
    [/api/servers/{id}/execute] route of [app.py], with the properties of the
    design document stated over it.

    Modelling conventions.
    - A Python [str] is a list of characters.  Characters are the 256 values
      of [ascii], read as the code points U+0000 .. U+00FF; [str.lower],
      [str.isspace] and the regular-expression class [\s] are CPython's,
      restricted to that range.
    - [re.search] is modelled by its meaning: some substring of the subject
      belongs to the language of the pattern.  The patterns of the source use
      no back-reference, look-around or anchor, so this is exactly when the
      backtracking engine reports a match.
    - paramiko, the clock, the log store and the byte decoders are an
      environment of oracles; each call of the SSH library is recorded in a
      trace carried by the world.  Exceptions are the subclasses of
      [Exception]; [SSHClient.close] does not raise.
    - The second half of the file adds [database.py], [auth.py] and the
      login and server routes of [app.py].  A JSON file is the list of its
      rows, a row a record of the keys the code writes; [uuid4], the clock,
      hashlib and python-jose are arguments or oracles; Base64 and UTF-8 are
      a codec of which the store needs only that decoding undoes encoding.
    - A call of the store runs to its end.  Where a coroutine reads a file
      in one call of the store and writes it in a later one
      ([register_new_user], the delete route), what other requests did to
      the files in between is an argument [between] of the model. *)

From Stdlib Require Import Ascii String Bool Arith NArith ZArith Lia List.
From Stdlib Require Import Sorted Permutation.
Import ListNotations.
Open Scope list_scope.

(* ================================================================== *)
(** ** Python strings *)

Module PyStr.

Definition str := list ascii.

(** A string literal of the source. *)
Definition lit (s : string) : str := list_ascii_of_string s.

Definition in_range (lo hi n : N) : bool := ((lo <=? n) && (n <=? hi))%N.

(** [str.isspace] on one character: TAB..CR, FS..US, SPACE, NEL, NBSP. *)
Definition isspace (c : ascii) : bool :=
  let n := N_of_ascii c in
  in_range 9 13 n || in_range 28 32 n || (n =? 133)%N || (n =? 160)%N.

(** [str.lower] on one character: A-Z and the Latin-1 capitals
    U+00C0..U+00DE (the multiplication sign U+00D7 apart) move up by 32. *)
Definition lower_char (c : ascii) : ascii :=
  let n := N_of_ascii c in
  if in_range 65 90 n || in_range 192 214 n || in_range 216 222 n
  then ascii_of_N (n + 32) else c.

Definition lower (s : str) : str := map lower_char s.

Fixpoint lstrip (s : str) : str :=
  match s with
  | [] => []
  | c :: t => if isspace c then lstrip t else s
  end.

Fixpoint rstrip (s : str) : str :=
  match s with
  | [] => []
  | c :: t =>
      match rstrip t with
      | [] => if isspace c then [] else [c]
      | t' => c :: t'
      end
  end.

(** [s.strip()] *)
Definition strip (s : str) : str := rstrip (lstrip s).

(** [s.startswith(p)] *)
Fixpoint startswith (p s : str) : bool :=
  match p, s with
  | [], _ => true
  | _ :: _, [] => false
  | a :: p', b :: s' => Ascii.eqb a b && startswith p' s'
  end.

(** [sub in s] *)
Fixpoint contains (sub s : str) : bool :=
  startswith sub s ||
  match s with
  | [] => false
  | _ :: t => contains sub t
  end.

Definition str_eqb (a b : str) : bool :=
  (List.length a =? List.length b) && startswith a b.

End PyStr.
Import PyStr.

(* ================================================================== *)
(** ** Regular expressions of the [re] module *)

Module Re.
#[local] Set Implicit Arguments.

Inductive regex : Type :=
| Empty                                  (* matches nothing *)
| Eps                                    (* the empty string *)
| Lit (c : ascii)                        (* one literal character *)
| Cls (p : ascii -> bool)                (* a character class *)
| Cat (r1 r2 : regex)
| Alt (r1 r2 : regex)
| Star (r : regex).

(** The language of a pattern. *)
Inductive matches : regex -> str -> Prop :=
| MEps : matches Eps []
| MLit c : matches (Lit c) [c]
| MCls (p : ascii -> bool) c : p c = true -> matches (Cls p) [c]
| MCat r1 r2 s1 s2 :
    matches r1 s1 -> matches r2 s2 -> matches (Cat r1 r2) (s1 ++ s2)
| MAltL r1 r2 s : matches r1 s -> matches (Alt r1 r2) s
| MAltR r1 r2 s : matches r2 s -> matches (Alt r1 r2) s
| MStar0 r : matches (Star r) []
| MStarS r s1 s2 :
    matches r s1 -> matches (Star r) s2 -> matches (Star r) (s1 ++ s2).

(** [re.search(r, s)] finds a match: a substring of [s] is in the language. *)
Definition found (r : regex) (s : str) : Prop :=
  exists pre mid post, s = pre ++ mid ++ post /\ matches r mid.

Fixpoint nullable (r : regex) : bool :=
  match r with
  | Empty => false
  | Eps => true
  | Lit _ => false
  | Cls _ => false
  | Cat r1 r2 => nullable r1 && nullable r2
  | Alt r1 r2 => nullable r1 || nullable r2
  | Star _ => true
  end.

Fixpoint deriv (c : ascii) (r : regex) : regex :=
  match r with
  | Empty => Empty
  | Eps => Empty
  | Lit a => if Ascii.eqb a c then Eps else Empty
  | Cls p => if p c then Eps else Empty
  | Cat r1 r2 =>
      if nullable r1
      then Alt (Cat (deriv c r1) r2) (deriv c r2)
      else Cat (deriv c r1) r2
  | Alt r1 r2 => Alt (deriv c r1) (deriv c r2)
  | Star r1 => Cat (deriv c r1) (Star r1)
  end.

(** Whole-string match. *)
Fixpoint fullmatch (r : regex) (s : str) : bool :=
  match s with
  | [] => nullable r
  | c :: t => fullmatch (deriv c r) t
  end.

(** [re.match]: some prefix of [s] is in the language. *)
Fixpoint match_ (r : regex) (s : str) : bool :=
  nullable r ||
  match s with
  | [] => false
  | c :: t => match_ (deriv c r) t
  end.

(** [re.search]: a match starting at some position of [s]. *)
Fixpoint search (r : regex) (s : str) : bool :=
  match_ r s ||
  match s with
  | [] => false
  | _ :: t => search r t
  end.

(** Pattern syntax. *)
Fixpoint text (s : str) : regex :=
  match s with
  | [] => Eps
  | c :: t => Cat (Lit c) (text t)
  end.

Definition plus (r : regex) : regex := Cat r (Star r).

Fixpoint times (n : nat) (r : regex) : regex :=
  match n with
  | O => Eps
  | S k => Cat r (times k r)
  end.

Fixpoint upto (n : nat) (r : regex) : regex :=
  match n with
  | O => Eps
  | S k => Alt Eps (Cat r (upto k r))
  end.

(** [r{m,n}] *)
Definition rep (m n : nat) (r : regex) : regex :=
  Cat (times m r) (upto (n - m) r).

(** [\s] *)
Definition ws : regex := Cls isspace.

(** [.] without DOTALL: any character but the line feed. *)
Definition dot : regex :=
  Cls (fun c => negb (N_of_ascii c =? 10)%N).

(** [[lo-hi]] *)
Definition range (lo hi : ascii) : regex :=
  Cls (fun c => in_range (N_of_ascii lo) (N_of_ascii hi) (N_of_ascii c)).

(** [[ab]] *)
Definition oneof (cs : str) : regex :=
  Cls (fun c => existsb (Ascii.eqb c) cs).

Fixpoint seq (rs : list regex) : regex :=
  match rs with
  | [] => Eps
  | [r] => r
  | r :: t => Cat r (seq t)
  end.

End Re.

(* ================================================================== *)
(** ** config.py *)

Module Settings.

Definition SSH_TIMEOUT : Z := 30.

Definition BLOCKED_COMMANDS : list str :=
  map lit
    [ "rm -rf"; "rm -fr"; "rm -r"; "dd"; "mkfs"; "shutdown";
      "reboot"; "halt"; "poweroff"; "init"; "kill"; "chmod 777" ]%string.

End Settings.

(* ================================================================== *)
(** ** security.py *)

Module CommandValidator.
Import Re.

Definition dangerous_patterns : list regex :=
  [ (* rm\s+.*-.*[rf] *)
    seq [text (lit "rm"); plus ws; Star dot; Lit "-"; Star dot;
         oneof (lit "rf")];
    (* :\(\)\{.*;\s*: *)
    seq [text (lit ":(){"); Star dot; Lit ";"; Star ws; Lit ":"];
    (* chmod\s+[0-7]{3,4}\s+.* *)
    seq [text (lit "chmod"); plus ws; rep 3 4 (range "0" "7"); plus ws;
         Star dot];
    (* >\s*/dev/sd[a-z] *)
    seq [Lit ">"; Star ws; text (lit "/dev/sd"); range "a" "z"];
    (* dd\s+.*if=.*of= *)
    seq [text (lit "dd"); plus ws; Star dot; text (lit "if="); Star dot;
         text (lit "of=")];
    (* mkfs\s+ *)
    seq [text (lit "mkfs"); plus ws];
    (* >\s*/proc/ *)
    seq [Lit ">"; Star ws; text (lit "/proc/")] ].

Definition allowed_prefixes : list str :=
  map lit
    [ "ls"; "pwd"; "whoami"; "date"; "uptime";
      "free"; "df"; "ps"; "cat "; "grep "; "tail ";
      "head "; "wc "; "find "; "du "; "uname"; "echo ";
      "cd "; "mkdir "; "touch "; "cp "; "mv " ]%string.

(** The three scans of [is_command_allowed], each a [for] loop that
    returns at the first hit. *)
Definition blocked_hit (command_lower : str) : bool :=
  existsb (fun blocked => contains blocked command_lower)
          Settings.BLOCKED_COMMANDS.

Definition pattern_hit (command_lower : str) : bool :=
  existsb (fun pattern => search pattern command_lower) dangerous_patterns.

Definition prefix_hit (command_lower : str) : bool :=
  existsb (fun prefix => startswith prefix command_lower) allowed_prefixes.

Definition is_command_allowed (command : str) : bool :=
  let command_lower := strip (lower command) in
  if blocked_hit command_lower then false
  else if pattern_hit command_lower then false
  else if prefix_hit command_lower then true
  else false.

(** [re.sub(r'\s+', ' ', s)]: every maximal run of white space becomes one
    space.  [in_run] tells that the previous character was white space. *)
Fixpoint sub_ws (in_run : bool) (s : str) : str :=
  match s with
  | [] => []
  | c :: t =>
      if isspace c
      then if in_run then sub_ws true t else " "%char :: sub_ws true t
      else c :: sub_ws false t
  end.

Definition metachars : str := lit ";&|`$<>".

Definition is_meta (c : ascii) : bool := existsb (Ascii.eqb c) metachars.

(** [re.sub(r'[;&|`$<>]', '', s)] *)
Definition remove_meta (s : str) : str :=
  filter (fun c => negb (is_meta c)) s.

Definition sanitize_command (command : str) : str :=
  let command := sub_ws false (strip command) in
  let command := remove_meta command in
  command.

End CommandValidator.

(* ================================================================== *)
(** ** Exceptions, the world and the environment *)

Module Py.

(** The exception classes the code tells apart.  [Exception] stands for
    the class itself and for every subclass that is none of the other
    three (socket errors, time-outs, ...). *)
Inductive exn_class : Type :=
| AuthenticationException      (* paramiko; a subclass of SSHException *)
| SSHException                 (* paramiko *)
| ValueError                   (* and its subclasses, e.g. UnicodeDecodeError *)
| Exception.

Record exn : Type := Exn { exn_cls : exn_class; exn_msg : str }.

(** [isinstance(e, c)] *)
Definition isinstance (e : exn) (c : exn_class) : bool :=
  match c, exn_cls e with
  | Exception, _ => true
  | SSHException, (SSHException | AuthenticationException) => true
  | AuthenticationException, AuthenticationException => true
  | ValueError, ValueError => true
  | _, _ => false
  end.

Definition bytes := list Byte.byte.

Inductive stream : Type := Stdout | Stderr.

Inductive auth_arg : Type :=
| Pkey (key_text : str)        (* pkey=RSAKey.from_private_key(StringIO(key_text)) *)
| Password (secret : str).     (* password=secret *)

(** One call that leaves the process or touches the SSH client. *)
Inductive event : Type :=
| EvCreate (client : nat)                       (* paramiko.SSHClient() *)
| EvSetPolicy (client : nat)                    (* AutoAddPolicy *)
| EvLoadKey (key_text : str)                    (* RSAKey.from_private_key *)
| EvConnect (client : nat) (host username : str) (port : Z)
            (auth : auth_arg) (timeout : Z)     (* client.connect *)
| EvExec (client : nat) (command : str) (timeout : option Z)
| EvRead (client : nat) (s : stream)
| EvExitStatus (client : nat)
| EvClose (client : nat)
| EvCreateLog (user_id server_id command : str) (exit_code : Z)
| EvNotify (email command : str)
| EvRaised (e : exn).                           (* the last call raised e *)

(** Calls that reach the network. *)
Definition is_network (e : event) : bool :=
  match e with
  | EvConnect _ _ _ _ _ _ | EvExec _ _ _ | EvRead _ _ | EvExitStatus _ => true
  | _ => false
  end.

Definition is_connect (e : event) : bool :=
  match e with
  | EvConnect _ _ _ _ _ _ => true
  | _ => false
  end.

(** The world: the calls made so far (oldest first), the next client
    handle, and the clients created and not yet closed. *)
Record world : Type := World {
  trace : list event;
  next_client : nat;
  open_clients : list nat
}.

Definition initial : world := World [] 0 [].

(** Every open client was handed out earlier. *)
Definition wf (w : world) : Prop :=
  Forall (fun c => c < next_client w) (open_clients w).

(** What the outside answers.  Each oracle sees the whole trace, the call
    being answered last.  A call that raises is followed in the trace by
    [EvRaised]. *)
Record env : Type := Env {
  from_private_key : list event -> option exn;
  connect : list event -> option exn;
  exec_command : list event -> option exn;
  read : list event -> exn + bytes;
  recv_exit_status : list event -> exn + Z;
  decode_ignore : bytes -> str;          (* b.decode('utf-8', errors='ignore') *)
  decode_strict : bytes -> exn + str;    (* b.decode() *)
  time : list event -> Z;                (* time.time() *)
  create_log : list event -> option exn  (* db.create_log *)
}.

(** State-and-exception monad: a raised exception keeps the state. *)
Definition M (S A : Type) : Type := S -> (exn + A) * S.

Definition ret {S A} (a : A) : M S A := fun s => (inr a, s).

Definition raise {S A} (e : exn) : M S A := fun s => (inl e, s).

Definition bind {S A B} (m : M S A) (k : A -> M S B) : M S B :=
  fun s =>
    match m s with
    | (inr a, s') => k a s'
    | (inl e, s') => (inl e, s')
    end.

(** [try: m  except Exception as e: h e] *)
Definition try_except {S A} (m : M S A) (h : exn -> M S A) : M S A :=
  fun s =>
    match m s with
    | (inr a, s') => (inr a, s')
    | (inl e, s') => h e s'
    end.

(** [try: m  finally: fin] *)
Definition try_finally {S A} (m : M S A) (fin : M S unit) : M S A :=
  fun s =>
    match m s with
    | (r, s') =>
        match fin s' with
        | (inr _, s'') => (r, s'')
        | (inl e, s'') => (inl e, s'')
        end
    end.

Definition lift_opt (o : option exn) : exn + unit :=
  match o with
  | Some e => inl e
  | None => inr tt
  end.

End Py.

Declare Scope py_scope.
Delimit Scope py_scope with py.
Notation "x <- m ;; k" := (Py.bind m (fun x => k))
  (at level 61, m at next level, right associativity) : py_scope.
Notation "m ;; k" := (Py.bind m (fun _ => k))
  (at level 61, right associativity) : py_scope.

(* ================================================================== *)
(** ** ssh_manager.py *)

Module SSHManager.
Import Py.
Open Scope py_scope.

(** The activation frame of one call: the world and the local [client]. *)
Record frame : Type := Frame { fw : world; client : option nat }.

Definition log (e : event) (f : frame) : frame :=
  let w := fw f in
  Frame (World (trace w ++ [e]) (next_client w) (open_clients w)) (client f).

(** A library call: record it, ask the environment, record a failure. *)
Definition call {A} (e : event) (answer : list event -> exn + A)
  : M frame A :=
  fun f =>
    let f' := log e f in
    match answer (trace (fw f')) with
    | inr a => (inr a, f')
    | inl x => (inl x, log (EvRaised x) f')
    end.

(** [client = paramiko.SSHClient()] *)
Definition new_client : M frame nat :=
  fun f =>
    let w := fw f in
    let c := next_client w in
    (inr c,
     Frame (World (trace w ++ [EvCreate c]) (S c) (c :: open_clients w))
           (Some c)).

Definition set_missing_host_key_policy (c : nat) : M frame unit :=
  call (EvSetPolicy c) (fun _ => inr tt).

(** [client.close()] *)
Definition close (c : nat) : M frame unit :=
  fun f =>
    let w := fw f in
    (inr tt,
     Frame (World (trace w ++ [EvClose c]) (next_client w)
                  (filter (fun c' => negb (c' =? c)) (open_clients w)))
           (client f)).

(** [finally: if client: client.close()] *)
Definition close_if_client : M frame unit :=
  fun f =>
    match client f with
    | Some c => close c f
    | None => (inr tt, f)
    end.

(** Run a body in a fresh frame with [client = None]. *)
Definition in_frame {A} (m : M frame A) : M world A :=
  fun w => let (r, f) := m (Frame w None) in (r, fw f).

(** [if ssh_key: ... elif password: ... else: ...] tests truthiness: an
    argument counts when it is neither [None] nor the empty string. *)
Definition supplied (o : option str) : option str :=
  match o with
  | Some (c :: t) => Some (c :: t)
  | _ => None
  end.

Definition not_allowed_msg (command : str) : str :=
  lit "Command not allowed: " ++ command.

Definition missing_msg : str :=
  lit "Either password or SSH key must be provided".

Definition execute_command (E : env)
    (host username : str) (port : Z)
    (password ssh_key : option str) (command : str)
  : M world (str * str * Z * Z) :=
  fun w0 =>
  let start_time := time E (trace w0) in
  in_frame
    (try_finally
      (try_except
        (if negb (CommandValidator.is_command_allowed command)
         then raise (Exn ValueError (not_allowed_msg command))
         else
           c <- new_client ;;
           set_missing_host_key_policy c ;;
           match supplied ssh_key, supplied password with
           | Some key, _ =>
               call (EvLoadKey key) (fun t => lift_opt (from_private_key E t)) ;;
               call (EvConnect c host username port (Pkey key)
                               Settings.SSH_TIMEOUT)
                    (fun t => lift_opt (connect E t))
           | None, Some pw =>
               call (EvConnect c host username port (Password pw)
                               Settings.SSH_TIMEOUT)
                    (fun t => lift_opt (connect E t))
           | None, None =>
               raise (Exn ValueError missing_msg)
           end ;;
           call (EvExec c command (Some 30%Z))
                (fun t => lift_opt (exec_command E t)) ;;
           out <- call (EvRead c Stdout) (read E) ;;
           err <- call (EvRead c Stderr) (read E) ;;
           exit_code <- call (EvExitStatus c) (recv_exit_status E) ;;
           (fun f =>
              let execution_time := (time E (trace (fw f)) - start_time)%Z in
              (inr (decode_ignore E out, decode_ignore E err, exit_code,
                    execution_time), f)))
        (fun e =>
           if isinstance e AuthenticationException
           then raise (Exn Exception
                           (lit "Authentication failed. Check credentials."))
           else if isinstance e SSHException
           then raise (Exn Exception
                           (lit "SSH connection failed: " ++ exn_msg e))
           else raise (Exn Exception
                           (lit "Error executing command: " ++ exn_msg e))))
      close_if_client)
    w0.

Definition probe_command : str := lit "echo 'Connection successful'".

Definition test_connection (E : env)
    (host username : str) (port : Z) (password ssh_key : option str)
  : M world bool :=
  in_frame
    (try_finally
      (try_except
        (c <- new_client ;;
         set_missing_host_key_policy c ;;
         let probe : M frame bool :=
           call (EvExec c probe_command None)
                (fun t => lift_opt (exec_command E t)) ;;
           out <- call (EvRead c Stdout) (read E) ;;
           output <- (fun f => (decode_strict E out, f)) ;;
           ret (contains (lit "Connection successful") (strip output))
         in
         match supplied ssh_key, supplied password with
         | Some key, _ =>
             call (EvLoadKey key) (fun t => lift_opt (from_private_key E t)) ;;
             call (EvConnect c host username port (Pkey key) 10%Z)
                  (fun t => lift_opt (connect E t)) ;;
             probe
         | None, Some pw =>
             call (EvConnect c host username port (Password pw) 10%Z)
                  (fun t => lift_opt (connect E t)) ;;
             probe
         | None, None => ret false
         end)
        (fun _ => ret false))
      close_if_client).

End SSHManager.

(* ================================================================== *)
(** ** app.py: POST /api/servers/{server_id}/execute *)

Module App.
Import Py.
Open Scope py_scope.

(** A record of the server store, as [db.get_server] returns it. *)
Record server : Type := Server {
  name : str;
  host : str;
  username : str;
  port : Z;
  use_password : bool;
  password : option str;
  ssh_key : option str
}.

Record user : Type := User { user_id : str; email : str }.

Record response : Type := Response {
  r_output : str;
  r_error : str;
  r_exit_code : Z;
  r_execution_time : Z;
  r_server : str;
  r_command : str
}.

(** What the route hands to the framework. *)
Inductive outcome : Type :=
| Ok200 (body : response)
| HTTPException (status_code : Z) (detail : str).

Definition HTTP_400_BAD_REQUEST : Z := 400.
Definition HTTP_404_NOT_FOUND : Z := 404.
Definition HTTP_500_INTERNAL_SERVER_ERROR : Z := 500.

Definition status_of (o : outcome) : Z :=
  match o with
  | Ok200 _ => 200
  | HTTPException s _ => s
  end.

Definition log_world (e : event) (w : world) : world :=
  World (trace w ++ [e]) (next_client w) (open_clients w).

Definition call_world {A} (e : event) (answer : list event -> exn + A)
  : M world A :=
  fun w =>
    let w' := log_world e w in
    match answer (trace w') with
    | inr a => (inr a, w')
    | inl x => (inl x, log_world (EvRaised x) w')
    end.

(** [server] is the result of [db.get_server(server_id, user)]. *)
Definition execute_command (E : env) (current_user : user)
    (server_id : str) (found : option server) (request_command : str)
  : world -> outcome * world :=
  fun w =>
  match found with
  | None => (HTTPException HTTP_404_NOT_FOUND (lit "Server not found"), w)
  | Some server =>
      let command := CommandValidator.sanitize_command request_command in
      let body : M world response :=
        r <- SSHManager.execute_command E
               (host server) (username server) (port server)
               (if use_password server then password server else None)
               (if negb (use_password server) then ssh_key server else None)
               command ;;
        let '(output, error, exit_code, exec_time) := r in
        call_world (EvCreateLog (user_id current_user) server_id command
                                exit_code)
                   (fun t => lift_opt (create_log E t)) ;;
        (if negb (exit_code =? 0)%Z
         then call_world (EvNotify (email current_user) command)
                         (fun _ => inr tt)
         else ret tt) ;;
        ret (Response output error exit_code exec_time (name server) command)
      in
      match body w with
      | (inr resp, w') => (Ok200 resp, w')
      | (inl e, w') =>
          if isinstance e ValueError
          then (HTTPException HTTP_400_BAD_REQUEST (exn_msg e), w')
          else (HTTPException HTTP_500_INTERNAL_SERVER_ERROR
                  (lit "Failed to execute command: " ++ exn_msg e), w')
      end
  end.

End App.

(* ================================================================== *)
(** ** Sample environments and records *)

Module Sample.
Import Py.

(** A reachable host that accepts the credentials and answers the probe. *)
Definition env_up : env :=
  Env (fun _ => None) (fun _ => None) (fun _ => None)
      (fun _ => inr []) (fun _ => inr 0%Z)
      (fun _ => lit "Connection successful")
      (fun _ => inr (lit "Connection successful"))
      (fun _ => 0%Z) (fun _ => None).

(** A host that rejects every credential. *)
Definition env_rejecting : env :=
  Env (fun _ => None)
      (fun _ => Some (Exn AuthenticationException (lit "Authentication failed.")))
      (fun _ => None)
      (fun _ => inr []) (fun _ => inr 0%Z)
      (fun _ => []) (fun _ => inr [])
      (fun _ => 0%Z) (fun _ => None).

Definition alice : App.user := App.User (lit "u1") (lit "alice@example.com").

Definition srv_password : App.server :=
  App.Server (lit "web") (lit "10.0.0.5") (lit "root") 22 true
             (Some (lit "hunter2")) None.

(** A stored server that asks for key authentication and has no key. *)
Definition srv_no_credential : App.server :=
  App.Server (lit "db") (lit "10.0.0.6") (lit "root") 22 false
             (Some (lit "hunter2")) None.

End Sample.

(* ================================================================== *)
(** ** The allow rule as the design document words it *)

Module Design.

(** The first white-space-delimited token of a stripped command. *)
Fixpoint first_token (s : str) : str :=
  match s with
  | [] => []
  | c :: t => if isspace c then [] else c :: first_token t
  end.

(** "The command's first token (or first token plus one trailing space)
    matches one of a fixed allow-list of verbs": the token, or the token
    followed by one space, is an entry of the allow list. *)
Definition first_token_is_verb (command_lower : str) : bool :=
  let tok := first_token command_lower in
  existsb (fun verb => str_eqb tok verb || str_eqb (tok ++ [" "%char]) verb)
          CommandValidator.allowed_prefixes.

End Design.

(* ================================================================== *)
(** ** models.py: the request bodies used below *)

Module Models.

(** [ServerCreate]; [server.dict()] is the same seven fields. *)
Record ServerCreate : Type := MkServerCreate {
  name : str;
  host : str;
  username : str;
  port : Z;
  use_password : bool;
  password : option str;
  ssh_key : option str
}.

(** [UserCreate] *)
Record UserCreate : Type := MkUserCreate {
  email : str;
  uc_password : str;
  first_name : str;
  last_name : str;
  age : option Z;
  phone : option str
}.

End Models.

(* ================================================================== *)
(** ** Base64 over UTF-8, as the server store uses it on passwords *)

Module Codec.

(** [base64.b64encode(p.encode()).decode()] and
    [base64.b64decode(s.encode()).decode()], the second of which can raise. *)
Record codec : Type := MkCodec {
  b64 : str -> str;
  unb64 : str -> Py.exn + str
}.

(** What the store relies on: decoding undoes encoding, and the encoding of
    a non-empty string is non-empty (so that it stays truthy). *)
Definition codec_ok (C : codec) : Prop :=
  forall p, unb64 C (b64 C p) = inr p /\ (p <> [] -> b64 C p <> []).

Definition alphabet : str :=
  lit "ABCDEFGHIJKLMNOPQRSTUVWXYZabcdefghijklmnopqrstuvwxyz0123456789+/".

(** A sextet is kept in the low six bits of a character. *)
Definition sextet_char (s : ascii) : ascii :=
  nth (nat_of_ascii s) alphabet "="%char.

Fixpoint index_of (c : ascii) (l : str) (i : N) : option N :=
  match l with
  | [] => None
  | a :: t => if Ascii.eqb a c then Some i else index_of c t (i + 1)
  end.

Definition char_sextet (c : ascii) : option ascii :=
  option_map ascii_of_N (index_of c alphabet 0).

(** The four sextets of three bytes; bit 0 is the least significant. *)
Definition sextet1 (a : ascii) : ascii :=
  let 'Ascii _ _ a2 a3 a4 a5 a6 a7 := a in
  Ascii a2 a3 a4 a5 a6 a7 false false.

Definition sextet2 (a b : ascii) : ascii :=
  let 'Ascii a0 a1 _ _ _ _ _ _ := a in
  let 'Ascii _ _ _ _ b4 b5 b6 b7 := b in
  Ascii b4 b5 b6 b7 a0 a1 false false.

Definition sextet3 (b c : ascii) : ascii :=
  let 'Ascii b0 b1 b2 b3 _ _ _ _ := b in
  let 'Ascii _ _ _ _ _ _ c6 c7 := c in
  Ascii c6 c7 b0 b1 b2 b3 false false.

Definition sextet4 (c : ascii) : ascii :=
  let 'Ascii c0 c1 c2 c3 c4 c5 _ _ := c in
  Ascii c0 c1 c2 c3 c4 c5 false false.

(** The three bytes of four sextets. *)
Definition byte1 (s1 s2 : ascii) : ascii :=
  let 'Ascii p0 p1 p2 p3 p4 p5 _ _ := s1 in
  let 'Ascii _ _ _ _ q4 q5 _ _ := s2 in
  Ascii q4 q5 p0 p1 p2 p3 p4 p5.

Definition byte2 (s2 s3 : ascii) : ascii :=
  let 'Ascii q0 q1 q2 q3 _ _ _ _ := s2 in
  let 'Ascii _ _ r2 r3 r4 r5 _ _ := s3 in
  Ascii r2 r3 r4 r5 q0 q1 q2 q3.

Definition byte3 (s3 s4 : ascii) : ascii :=
  let 'Ascii r0 r1 _ _ _ _ _ _ := s3 in
  let 'Ascii t0 t1 t2 t3 t4 t5 _ _ := s4 in
  Ascii t0 t1 t2 t3 t4 t5 r0 r1.

(** [base64.b64encode] (RFC 4648, with padding). *)
Fixpoint b64encode (bs : list ascii) : str :=
  match bs with
  | [] => []
  | [a] =>
      [sextet_char (sextet1 a); sextet_char (sextet2 a zero);
       "="%char; "="%char]
  | [a; b] =>
      [sextet_char (sextet1 a); sextet_char (sextet2 a b);
       sextet_char (sextet3 b zero); "="%char]
  | a :: b :: c :: t =>
      sextet_char (sextet1 a) :: sextet_char (sextet2 a b)
      :: sextet_char (sextet3 b c) :: sextet_char (sextet4 c)
      :: b64encode t
  end.

(** Decoding of well-formed, padded Base64; anything else is refused. *)
Fixpoint b64decode (s : str) : option (list ascii) :=
  match s with
  | [] => Some []
  | c1 :: c2 :: c3 :: c4 :: t =>
      match char_sextet c1, char_sextet c2 with
      | Some s1, Some s2 =>
          if Ascii.eqb c4 "="
          then match t with
               | [] =>
                   if Ascii.eqb c3 "=" then Some [byte1 s1 s2]
                   else match char_sextet c3 with
                        | Some s3 => Some [byte1 s1 s2; byte2 s2 s3]
                        | None => None
                        end
               | _ :: _ => None
               end
          else match char_sextet c3, char_sextet c4, b64decode t with
               | Some s3, Some s4, Some r =>
                   Some (byte1 s1 s2 :: byte2 s2 s3 :: byte3 s3 s4 :: r)
               | _, _, _ => None
               end
      | _, _ => None
      end
  | _ => None
  end.

(** [str.encode()] (UTF-8) on the characters U+0000..U+00FF. *)
Definition utf8_char (c : ascii) : list ascii :=
  let 'Ascii b0 b1 b2 b3 b4 b5 b6 b7 := c in
  if b7
  then [Ascii b6 true false false false false true true;
        Ascii b0 b1 b2 b3 b4 b5 false true]
  else [c].

Definition utf8_encode (s : str) : list ascii := flat_map utf8_char s.

(** [bytes.decode()] (UTF-8) of the encodings of U+0000..U+00FF; anything
    else is refused. *)
Fixpoint utf8_decode (bs : list ascii) : option str :=
  match bs with
  | [] => Some []
  | Ascii b0 b1 b2 b3 b4 b5 b6 false :: t =>
      option_map (cons (Ascii b0 b1 b2 b3 b4 b5 b6 false)) (utf8_decode t)
  | Ascii b6 true false false false false true true
      :: Ascii b0 b1 b2 b3 b4 b5 false true :: t =>
      option_map (cons (Ascii b0 b1 b2 b3 b4 b5 b6 true)) (utf8_decode t)
  | _ => None
  end.

Definition decode_error : Py.exn :=
  Py.Exn Py.ValueError (lit "Incorrect padding or invalid start byte").

(** The codec on text of the modelled range. *)
Definition base64_utf8 : codec :=
  MkCodec
    (fun p => b64encode (utf8_encode p))
    (fun s =>
       match b64decode s with
       | Some bs =>
           match utf8_decode bs with
           | Some p => inr p
           | None => inl decode_error
           end
       | None => inl decode_error
       end).

End Codec.

(* ================================================================== *)
(** ** database.py *)

Module Database.
Import Models Codec.

(** A row of [servers.json]: the keys of [ServerCreate.dict()] and the four
    keys that [create_server] adds. *)
Record server_row : Type := ServerRow {
  s_data : ServerCreate;
  s_id : str;
  s_user_id : str;
  s_created_at : str;
  s_updated_at : str
}.

(** The dictionary that [register_new_user] hands to [create_user]:
    [UserCreate.dict()] with [password] replaced by [hashed_password]. *)
Record user_dict : Type := UserDict {
  ud_email : str;
  ud_hashed_password : str;
  ud_first_name : str;
  ud_last_name : str;
  ud_age : option Z;
  ud_phone : option str
}.

(** A row of [users.json]. *)
Record user_row : Type := UserRow {
  u_data : user_dict;
  u_id : str;
  u_created_at : str;
  u_role : str
}.

(** The dictionary that the execute route hands to [create_log]. *)
Record log_dict : Type := LogDict {
  ld_user_id : str;
  ld_server_id : str;
  ld_server_name : str;
  ld_command : str;
  ld_output : str;
  ld_error : str;
  ld_exit_code : Z;
  ld_execution_time : Z
}.

(** A row of [logs.json]. *)
Record log_row : Type := LogRow {
  l_data : log_dict;
  l_id : str;
  l_timestamp : str
}.

(** The three files.  [None] is a file that is missing, empty or not JSON;
    [Some rows] a file holding the JSON list [rows]. *)
Record db : Type := Db {
  users_file : option (list user_row);
  servers_file : option (list server_row);
  logs_file : option (list log_row)
}.

(** [_read_file]: the rows, or the empty list when the file is missing, empty
    or not JSON. *)
Definition _read_file {A} (file : option (list A)) : list A :=
  match file with
  | Some rows => rows
  | None => []
  end.

(** [_write_file] *)
Definition _write_file {A} (data : list A) : option (list A) := Some data.

Definition set_password (data : ServerCreate) (p : option str) : ServerCreate :=
  MkServerCreate (name data) (host data) (username data) (port data)
                 (use_password data) p (ssh_key data).

(** [if d.get('password'): d['password'] = b64encode(...)] *)
Definition encode_password (C : codec) (data : ServerCreate) : ServerCreate :=
  match SSHManager.supplied (password data) with
  | Some p => set_password data (Some (b64 C p))
  | None => data
  end.

(** [if server.get('password'): server['password'] = b64decode(...)] *)
Definition decode_password (C : codec) (row : server_row)
  : Py.exn + server_row :=
  match SSHManager.supplied (password (s_data row)) with
  | Some p =>
      match unb64 C p with
      | inr q => inr (ServerRow (set_password (s_data row) (Some q))
                                (s_id row) (s_user_id row)
                                (s_created_at row) (s_updated_at row))
      | inl e => inl e
      end
  | None => inr row
  end.

(** [uuid], [now1] and [now2] are the values of [uuid.uuid4()] and of the two
    readings of [datetime.now()]. *)
Definition create_server (C : codec) (uuid now1 now2 : str)
    (d : db) (user_id : str) (server_data : ServerCreate) : db * str :=
  let row := ServerRow (encode_password C server_data) uuid user_id now1 now2 in
  let servers := _read_file (servers_file d) in
  (Db (users_file d) (_write_file (servers ++ [row])) (logs_file d), uuid).

Definition owned_by (user_id : str) (s : server_row) : bool :=
  str_eqb (s_user_id s) user_id.

Definition is_server (server_id user_id : str) (s : server_row) : bool :=
  str_eqb (s_id s) server_id && str_eqb (s_user_id s) user_id.

(** The [for] loop that decodes the passwords one row after the other. *)
Fixpoint decode_all (C : codec) (rows : list server_row)
  : Py.exn + list server_row :=
  match rows with
  | [] => inr []
  | r :: t =>
      match decode_password C r with
      | inl e => inl e
      | inr r' =>
          match decode_all C t with
          | inl e => inl e
          | inr t' => inr (r' :: t')
          end
      end
  end.

Definition get_user_servers (C : codec) (d : db) (user_id : str)
  : Py.exn + list server_row :=
  let servers := _read_file (servers_file d) in
  decode_all C (filter (owned_by user_id) servers).

Definition get_server (C : codec) (d : db) (server_id user_id : str)
  : Py.exn + option server_row :=
  let servers := _read_file (servers_file d) in
  match find (is_server server_id user_id) servers with
  | Some server =>
      match decode_password C server with
      | inr s => inr (Some s)
      | inl e => inl e
      end
  | None => inr None
  end.

(** [for i, server in enumerate(servers): if ...: servers[i] = ...; return]:
    the first matching row is replaced. *)
Fixpoint replace_first {A} (p : A -> bool) (f : A -> A) (l : list A)
  : option (list A) :=
  match l with
  | [] => None
  | a :: t =>
      if p a then Some (f a :: t)
      else option_map (cons a) (replace_first p f t)
  end.

(** [update_data] is [ServerCreate.dict()]: it overwrites the seven keys. *)
Definition update_server (C : codec) (now : str) (d : db)
    (server_id user_id : str) (update_data : ServerCreate) : db * bool :=
  let servers := _read_file (servers_file d) in
  match replace_first (is_server server_id user_id)
          (fun s => ServerRow (encode_password C update_data)
                              (s_id s) (s_user_id s) (s_created_at s) now)
          servers with
  | Some servers' =>
      (Db (users_file d) (_write_file servers') (logs_file d), true)
  | None => (d, false)
  end.

Definition delete_server (d : db) (server_id user_id : str) : db * bool :=
  let servers := _read_file (servers_file d) in
  let new_servers :=
    filter (fun s => negb (is_server server_id user_id s)) servers in
  if negb (List.length new_servers =? List.length servers)
  then (Db (users_file d) (_write_file new_servers) (logs_file d), true)
  else (d, false).

(** *** Users *)

Definition create_user (uuid now : str) (d : db) (user_data : user_dict)
  : db * str :=
  let row := UserRow user_data uuid now (lit "user") in
  let users := _read_file (users_file d) in
  (Db (_write_file (users ++ [row])) (servers_file d) (logs_file d), uuid).

Definition get_user_by_email (d : db) (email : str) : option user_row :=
  find (fun u => str_eqb (ud_email (u_data u)) email)
       (_read_file (users_file d)).

Definition get_user_by_id (d : db) (user_id : str) : option user_row :=
  find (fun u => str_eqb (u_id u) user_id) (_read_file (users_file d)).

Definition delete_user (d : db) (user_id : str) : db * bool :=
  let users := _read_file (users_file d) in
  let new_users := filter (fun u => negb (str_eqb (u_id u) user_id)) users in
  if negb (List.length new_users =? List.length users)
  then (Db (_write_file new_users) (servers_file d) (logs_file d), true)
  else (d, false).

(** *** Logs *)

Definition create_log (uuid now : str) (d : db) (log_data : log_dict)
  : db * str :=
  let row := LogRow log_data uuid now in
  let logs := _read_file (logs_file d) in
  (Db (users_file d) (servers_file d) (_write_file (logs ++ [row])), uuid).

(** [a < b] on [str]: lexicographic, by code point. *)
Fixpoint str_ltb (a b : str) : bool :=
  match a, b with
  | _, [] => false
  | [], _ :: _ => true
  | x :: a', y :: b' =>
      if (N_of_ascii x <? N_of_ascii y)%N then true
      else if (N_of_ascii y <? N_of_ascii x)%N then false
      else str_ltb a' b'
  end.

(** [sorted(rows, key=..., reverse=True)]: descending and stable, rows with
    equal keys keep their order. *)
Fixpoint insert_desc {A} (key : A -> str) (x : A) (l : list A) : list A :=
  match l with
  | [] => [x]
  | y :: t =>
      if str_ltb (key x) (key y) then y :: insert_desc key x t
      else x :: y :: t
  end.

Definition sorted_desc {A} (key : A -> str) (l : list A) : list A :=
  fold_right (insert_desc key) [] l.

(** [l[:limit]] for an [int]: a negative limit counts from the end. *)
Definition slice_to {A} (limit : Z) (l : list A) : list A :=
  if (0 <=? limit)%Z then firstn (Z.to_nat limit) l
  else firstn (List.length l - Z.to_nat (- limit)) l.

Definition get_user_logs (d : db) (user_id : str) (limit : Z) : list log_row :=
  let logs := _read_file (logs_file d) in
  let user_logs :=
    filter (fun log => str_eqb (ld_user_id (l_data log)) user_id) logs in
  slice_to limit (sorted_desc l_timestamp user_logs).

End Database.

(* ================================================================== *)
(** ** auth.py *)

Module Auth.
Import Models Database.

(** The payload of a token: [{"sub": ..., "exp": ...}]. *)
Record claims : Type := Claims { sub : str; exp : Z }.

(** What [jwt.decode] answers: the payload (of which only [payload.get("sub")]
    is read), a [JWTError], or another exception. *)
Inductive jwt_answer : Type :=
| Decoded (sub : option str)
| JWTError
| OtherError (e : Py.exn).

(** hashlib and python-jose.  [sha256_hex p] is
    [hashlib.sha256(p.encode()).hexdigest()]; the key and the algorithm of
    [jwt.encode] and [jwt.decode] are the constants of the settings. *)
Record crypto : Type := Crypto {
  sha256_hex : str -> str;
  jwt_encode : claims -> str;
  jwt_decode : str -> jwt_answer
}.

(** What a coroutine of the web layer ends with. *)
Inductive answer (A : Type) : Type :=
| Return (a : A)
| HTTPException (status_code : Z) (detail : str)
| Raised (e : Py.exn).
Arguments Return {A} a.
Arguments HTTPException {A} status_code detail.
Arguments Raised {A} e.

Record Token : Type := MkToken { access_token : str; token_type : str }.

(** [timedelta(minutes=settings.ACCESS_TOKEN_EXPIRE_MINUTES)], in
    microseconds, the resolution of [timedelta]. *)
Definition ACCESS_TOKEN_EXPIRE : Z := 30 * 60 * 1000000.

Definition verify_password (K : crypto) (plain_password hashed_password : str)
  : bool :=
  let test_hash := sha256_hex K plain_password in
  str_eqb test_hash hashed_password.

Definition get_password_hash (K : crypto) (password : str) : str :=
  sha256_hex K password.

(** [utcnow] is the reading of [datetime.utcnow()], in microseconds;
    [if expires_delta:] is false for [None] and for the zero [timedelta]. *)
Definition create_access_token (K : crypto) (utcnow : Z) (data_sub : str)
    (expires_delta : option Z) : str :=
  let expire :=
    match expires_delta with
    | Some delta =>
        if (delta =? 0)%Z then (utcnow + ACCESS_TOKEN_EXPIRE)%Z
        else (utcnow + delta)%Z
    | None => (utcnow + ACCESS_TOKEN_EXPIRE)%Z
    end in
  jwt_encode K (Claims data_sub expire).

(** [None] stands for the [False] that the function returns. *)
Definition authenticate_user (K : crypto) (d : db) (email password : str)
  : option user_row :=
  match get_user_by_email d email with
  | None => None
  | Some user =>
      if negb (verify_password K password (ud_hashed_password (u_data user)))
      then None
      else Some user
  end.

Definition credentials_exception : answer user_row :=
  HTTPException 401 (lit "Could not validate credentials").

Definition get_current_user (K : crypto) (d : db) (token : str)
  : answer user_row :=
  match jwt_decode K token with
  | JWTError => credentials_exception
  | OtherError e => Raised e
  | Decoded None => credentials_exception
  | Decoded (Some user_id) =>
      match get_user_by_id d user_id with
      | None => credentials_exception
      | Some user => Return user
      end
  end.

(** [register_new_user] among other requests.  Its two awaits,
    [db.get_user_by_email] and [db.create_user], each read [users.json];
    [between] is what other requests did to the files after the first had
    answered and before the second read. *)
Definition register_new_user_among (K : crypto) (uuid now : str) (utcnow : Z)
    (between : db -> db) (d : db) (user_data : UserCreate)
  : answer Token * db :=
  match get_user_by_email d (email user_data) with
  | Some _ => (HTTPException 400 (lit "Email already registered"), d)
  | None =>
      let user_dict :=
        UserDict (email user_data)
                 (get_password_hash K (uc_password user_data))
                 (first_name user_data) (last_name user_data)
                 (age user_data) (phone user_data) in
      let (d', user_id) := create_user uuid now (between d) user_dict in
      let access_token := create_access_token K utcnow user_id None in
      (Return (MkToken access_token (lit "bearer")), d')
  end.

(** [register_new_user] with no other request between its two awaits. *)
Definition register_new_user (K : crypto) (uuid now : str) (utcnow : Z)
    (d : db) (user_data : UserCreate) : answer Token * db :=
  register_new_user_among K uuid now utcnow (fun d => d) d user_data.

End Auth.

(* ================================================================== *)
(** ** app.py: the login and server routes *)

Module Routes.
Import Models Codec Database Auth.

(** What a route works on: the SSH world, the three files, and the
    notification tasks handed to [asyncio.create_task]
    (recipient, server name, action). *)
Record site : Type := Site {
  world : Py.world;
  store : db;
  scheduled : list (str * str * str)
}.


(** The probe that the server routes run before they store anything. *)
Definition probe (E : Py.env) (server : ServerCreate)
  : Py.M Py.world bool :=
  SSHManager.test_connection E (host server) (username server) (port server)
    (if use_password server then password server else None)
    (if negb (use_password server) then ssh_key server else None).

(** POST /api/servers *)
Definition create_server (E : Py.env) (C : codec) (uuid now1 now2 : str)
    (current_user : user_row) (server : ServerCreate) (s : site)
  : answer str * site :=
  if use_password server
     && match SSHManager.supplied (password server) with
        | Some _ => false
        | None => true
        end
  then (HTTPException 400
          (lit "Password required for password authentication"), s)
  else
    match probe E server (world s) with
    | (inl e, w') => (Raised e, Site w' (store s) (scheduled s))
    | (inr false, w') =>
        (HTTPException 400
           (lit "Failed to connect to server. Check credentials."),
         Site w' (store s) (scheduled s))
    | (inr true, w') =>
        let (d', server_id) :=
          Database.create_server C uuid now1 now2 (store s)
                                 (u_id current_user) server in
        (Return server_id,
         Site w' d'
              (scheduled s
               ++ [(ud_email (u_data current_user), name server,
                    lit "added")]))
    end.

(** DELETE /api/servers/{server_id}.  The route awaits [db.get_server] and
    then [db.delete_server], which reads [servers.json] again; [between] is
    what other requests did to the files after the look-up had answered and
    before the deletion read. *)
Definition delete_server (C : codec) (between : db -> db)
    (current_user : user_row) (server_id : str) (s : site)
  : answer str * site :=
  match get_server C (store s) server_id (u_id current_user) with
  | inl e => (Raised e, s)
  | inr None => (HTTPException 404 (lit "Server not found"), s)
  | inr (Some server) =>
      let (d', success) :=
        Database.delete_server (between (store s)) server_id
                               (u_id current_user) in
      if negb success
      then (HTTPException 500 (lit "Failed to delete server"),
            Site (world s) d' (scheduled s))
      else (Return (lit "Server deleted successfully"),
            Site (world s) d'
                 (scheduled s
                  ++ [(ud_email (u_data current_user),
                       name (s_data server), lit "deleted")]))
  end.

(** The record that the execute route reads from a stored row. *)
Definition as_server (row : server_row) : App.server :=
  let data := s_data row in
  App.Server (name data) (host data) (username data) (port data)
             (use_password data) (password data) (ssh_key data).

(** POST /api/servers/{server_id}/execute, from the look-up on.  The audit
    record is written through the environment, so the files are only read. *)
Definition execute (E : Py.env) (C : codec) (d : db) (current_user : user_row)
    (server_id : str) (request_command : str) (w : Py.world)
  : answer App.outcome * Py.world :=
  match get_server C d server_id (u_id current_user) with
  | inl e => (Raised e, w)
  | inr found =>
      let (out, w') :=
        App.execute_command E
          (App.User (u_id current_user) (ud_email (u_data current_user)))
          server_id (option_map as_server found) request_command w in
      (Return out, w')
  end.

End Routes.

(* ================================================================== *)
(** ** Sample stores and requests *)

Module Fixture.
Import Models Database Auth.

(** A stand-in for hashlib and python-jose: the "hash" and the "token" are
    tagged copies, which is all the statements need of them. *)
Definition toy_crypto : crypto :=
  Crypto (fun p => lit "sha256:" ++ p)
         (fun c => lit "jwt:" ++ sub c)
         (fun t =>
            if startswith (lit "jwt:") t then Decoded (Some (skipn 4 t))
            else JWTError).

Definition empty_db : db := Db None None None.

Definition web : ServerCreate :=
  MkServerCreate (lit "web") (lit "10.0.0.5") (lit "root") 22 true
                 (Some (lit "hunter2")) None.

Definition keyed : ServerCreate :=
  MkServerCreate (lit "web") (lit "10.0.0.7") (lit "deploy") 2222 false
                 None (Some (lit "PEM")).

(** Key authentication asked for, no key given. *)
Definition keyless : ServerCreate :=
  MkServerCreate (lit "db") (lit "10.0.0.6") (lit "root") 22 false
                 (Some (lit "hunter2")) None.

(** The store after user [u1] added [web]. *)
Definition one_server : db :=
  fst (create_server Codec.base64_utf8 (lit "id-1") (lit "t1") (lit "t2")
         empty_db (lit "u1") web).

Definition alice : UserCreate :=
  MkUserCreate (lit "alice@example.com") (lit "s3cret!") (lit "Alice")
               (lit "Liddell") None None.

Definition alice_row : user_row :=
  UserRow (UserDict (lit "alice@example.com") (lit "sha256:s3cret!")
                    (lit "Alice") (lit "Liddell") None None)
          (lit "u1") (lit "t1") (lit "user").

Definition mallory_row : user_row :=
  UserRow (UserDict (lit "mallory@example.com") (lit "sha256:letmein")
                    (lit "Mallory") (lit "M") None None)
          (lit "u2") (lit "t1") (lit "user").

Definition one_user : db := Db (Some [alice_row]) None None.

Definition bob : UserCreate :=
  MkUserCreate (lit "bob@example.com") (lit "pa55word") (lit "Bob")
               (lit "Builder") None None.

Definition a_log : log_dict :=
  LogDict (lit "u1") (lit "id-1") (lit "web") (lit "ls -la /home")
          (lit "total 0") [] 0 12.

(** A record of another user. *)
Definition foreign_log : log_dict :=
  LogDict (lit "u2") (lit "id-9") (lit "db") (lit "uptime")
          (lit "up 3 days") [] 0 7.

(** The log file after [u1] ran a command at nine and [u2] one at eleven. *)
Definition logged : db :=
  fst (create_log (lit "log-b") (lit "2026-01-01T11:00:00")
         (fst (create_log (lit "log-a") (lit "2026-01-01T09:00:00")
                 empty_db a_log))
         foreign_log).

(** Another request that deletes server [id-1] of user [u1]. *)
Definition rival_delete (d : db) : db :=
  fst (delete_server d (lit "id-1") (lit "u1")).

(** Another request that registers [alice]. *)
Definition rival_register (d : db) : db :=
  snd (register_new_user toy_crypto (lit "u9") (lit "t0") 0 d alice).

Definition empty_site : Routes.site := Routes.Site Py.initial empty_db [].

End Fixture.

(* ================================================================== *)
(** ** Vocabulary of the statements *)

(** [sub] occurs in [s]. *)
Definition substring (sub s : str) : Prop :=
  exists pre post, s = pre ++ sub ++ post.

(** [s] starts with [p]. *)
Definition has_prefix (p s : str) : Prop := exists rest, s = p ++ rest.

(** None of the stripped metacharacters occurs in [s]. *)
Definition meta_free (s : str) : Prop :=
  Forall (fun c => ~ In c CommandValidator.metachars) s.

(** A string with no white space at either end. *)
Definition trimmed (s : str) : Prop :=
  s = [] \/
  ((exists c t, s = c :: t /\ isspace c = false) /\
   (exists u d, s = u ++ [d] /\ isspace d = false)).

(** Between [w] and [w'] no session was left open: the open clients are
    those of [w], and every client created in between was closed by the
    last call made. *)
Definition released (w w' : Py.world) : Prop :=
  Py.open_clients w' = Py.open_clients w /\
  Py.wf w' /\
  exists t, Py.trace w' = Py.trace w ++ t /\
            forall c, In (Py.EvCreate c) t ->
                      exists t0, t = t0 ++ [Py.EvClose c].

(** A string of white space only (the empty string included). *)
Definition blank (s : str) : Prop := Forall (fun c => isspace c = true) s.

(** How [SSHManager.execute_command] reports an exception [e] raised inside
    its [try] block: the three [except] arms. *)
Definition reported (e : Py.exn) : Py.exn :=
  if Py.isinstance e Py.AuthenticationException
  then Py.Exn Py.Exception (lit "Authentication failed. Check credentials.")
  else if Py.isinstance e Py.SSHException
  then Py.Exn Py.Exception (lit "SSH connection failed: " ++ Py.exn_msg e)
  else Py.Exn Py.Exception (lit "Error executing command: " ++ Py.exn_msg e).

(** The call of the session executor that the execute route makes for a
    stored server and a raw command. *)
Definition route_call (E : Py.env) (srv : App.server) (raw : str)
  : Py.M Py.world (str * str * Z * Z) :=
  SSHManager.execute_command E (App.host srv) (App.username srv) (App.port srv)
    (if App.use_password srv then App.password srv else None)
    (if negb (App.use_password srv) then App.ssh_key srv else None)
    (CommandValidator.sanitize_command raw).

(** A character that holds a Base64 sextet: its two high bits are clear. *)
Definition is_sextet (s : ascii) : Prop :=
  exists b0 b1 b2 b3 b4 b5, s = Ascii b0 b1 b2 b3 b4 b5 false false.

(** [a] does not sort after [b]: its key is not smaller. *)
Definition desc_by {A} (key : A -> str) (a b : A) : Prop :=
  Database.str_ltb (key a) (key b) = false.

(** The log record belongs to the user. *)
Definition of_user (uid : str) (log : Database.log_row) : bool :=
  str_eqb (Database.ld_user_id (Database.l_data log)) uid.

(** The e-mail addresses in the user file, in file order. *)
Definition emails (d : Database.db) : list str :=
  map (fun u => Database.ud_email (Database.u_data u))
      (Database._read_file (Database.users_file d)).

(** The credential that a [ServerCreate] selects. *)
Definition credential (server : Models.ServerCreate) : option str :=
  if Models.use_password server then Models.password server
  else Models.ssh_key server.

(** [s.split()]: the words of [s], its maximal runs of characters that are
    not white space.  The scan runs from the right; the flag tells that [s]
    starts inside a word. *)
Fixpoint split_ws (s : str) : list str * bool :=
  match s with
  | [] => ([], false)
  | c :: t =>
      let (ws, inside) := split_ws t in
      if isspace c then (ws, false)
      else match inside, ws with
           | true, w :: r => ((c :: w) :: r, true)
           | _, _ => ([c] :: ws, true)
           end
  end.

Definition words (s : str) : list str := fst (split_ws s).

(** [" ".join(l)] *)
Fixpoint join (l : list str) : str :=
  match l with
  | [] => []
  | [w] => w
  | w :: t => w ++ " "%char :: join t
  end.

(** A word made of stripped metacharacters only. *)
Definition only_meta (w : str) : Prop :=
  Forall (fun c => In c CommandValidator.metachars) w.

Definition nonempty (w : str) : bool :=
  match w with
  | [] => false
  | _ :: _ => true
  end.

(** A string without white space. *)
Definition solid (w : str) : Prop := Forall (fun c => isspace c = false) w.

(** The characters of all the strings of [l] together. *)
Fixpoint total_length (l : list str) : nat :=
  match l with
  | [] => 0
  | w :: t => List.length w + total_length t
  end.

(* ================================================================== *)
(** * Properties *)

Import Re CommandValidator.

(** ** Strings *)

Lemma startswith_iff (p s : str) :
  startswith p s = true <-> exists rest, s = p ++ rest.
Proof.
  revert s; induction p as [|a p IH]; intros s; simpl.
  - split; [intros _; now exists s | reflexivity].
  - destruct s as [|b s].
    + split; [discriminate | intros [rest H]; discriminate].
    + rewrite andb_true_iff, Ascii.eqb_eq, IH. split.
      * intros [-> [rest ->]]. now exists rest.
      * intros [rest H]. injection H as -> ->. split; [reflexivity | now exists rest].
Qed.

Lemma contains_iff (sub s : str) :
  contains sub s = true <-> exists pre post, s = pre ++ sub ++ post.
Proof.
  induction s as [|c s IH]; simpl.
  - rewrite orb_false_r, startswith_iff. split.
    + intros [rest H]. now exists [], rest.
    + intros [pre [post H]]. destruct pre; [now exists post | discriminate].
  - rewrite orb_true_iff, startswith_iff, IH. split.
    + intros [[rest H] | [pre [post H]]].
      * now exists [], rest.
      * exists (c :: pre), post. now rewrite H.
    + intros [pre [post H]]. destruct pre as [|a pre]; simpl in H.
      * left. now exists post.
      * right. injection H as _ H. now exists pre, post.
Qed.

(** ** Regular expressions: the matcher decides the language *)

Lemma cat_inv (r1 r2 : regex) (s : str) :
  matches (Cat r1 r2) s ->
  exists s1 s2, s = s1 ++ s2 /\ matches r1 s1 /\ matches r2 s2.
Proof. intros H. inversion H; subst. eauto. Qed.

Lemma nullable_iff (r : regex) : nullable r = true <-> matches r [].
Proof.
  induction r; simpl.
  - split; [discriminate | intros H; inversion H].
  - split; [constructor | reflexivity].
  - split; [discriminate | intros H; inversion H].
  - split; [discriminate | intros H; inversion H].
  - rewrite andb_true_iff, IHr1, IHr2. split.
    + intros [H1 H2]. exact (MCat H1 H2).
    + intros H. apply cat_inv in H as [s1 [s2 [E [H1 H2]]]]. symmetry in E.
      apply app_eq_nil in E as [-> ->]. now split.
  - rewrite orb_true_iff, IHr1, IHr2. split.
    + intros [H | H]; [now apply MAltL | now apply MAltR].
    + intros H. inversion H; subst; [now left | now right].
  - split; [constructor | reflexivity].
Qed.

Lemma star_cons (r : regex) (c : ascii) (s : str) :
  matches (Star r) (c :: s) ->
  exists s1 s2, s = s1 ++ s2 /\ matches r (c :: s1) /\ matches (Star r) s2.
Proof.
  intros H. remember (Star r) as r' eqn:Er. remember (c :: s) as x eqn:Ex.
  revert s Ex.
  induction H as [| | | | | | |r0 s1 s2 H1 _ H2 IH2]; intros t Ex;
    try discriminate.
  injection Er as ->.
  destruct s1 as [|a s1]; simpl in Ex.
  - now apply IH2.
  - injection Ex as -> <-. now exists s1, s2.
Qed.

Lemma deriv_iff (r : regex) (c : ascii) (s : str) :
  matches (deriv c r) s <-> matches r (c :: s).
Proof.
  revert s; induction r as [| |a|p|r1 IH1 r2 IH2|r1 IH1 r2 IH2|r IH];
    intros s; simpl.
  - split; intros H; inversion H.
  - split; intros H; inversion H.
  - destruct (Ascii.eqb a c) eqn:E.
    + apply Ascii.eqb_eq in E as ->. split; intros H; inversion H; constructor.
    + split; intros H; inversion H; subst.
      rewrite Ascii.eqb_refl in E. discriminate.
  - destruct (p c) eqn:E.
    + split; intros H; inversion H; subst; now constructor.
    + split; intros H; inversion H; subst. congruence.
  - assert (Hcat : matches (Cat (deriv c r1) r2) s ->
                   matches (Cat r1 r2) (c :: s)).
    { intros H. apply cat_inv in H as [s1 [s2 [-> [H1 H2]]]].
      apply IH1 in H1. exact (MCat H1 H2). }
    assert (Hinv : matches (Cat r1 r2) (c :: s) ->
                   matches (Cat (deriv c r1) r2) s \/
                   (nullable r1 = true /\ matches (deriv c r2) s)).
    { intros H. apply cat_inv in H as [s1 [s2 [E [H1 H2]]]].
      destruct s1 as [|a s1]; simpl in E.
      - right. subst s2. split; [now apply nullable_iff | now apply IH2].
      - injection E as <- ->. left. apply IH1 in H1. exact (MCat H1 H2). }
    destruct (nullable r1) eqn:N.
    + split.
      * intros H. inversion H; subst; [now apply Hcat |].
        apply nullable_iff in N. apply (MCat (s1 := []) N). now apply IH2.
      * intros H. destruct (Hinv H) as [H' | [_ H']];
          [now apply MAltL | now apply MAltR].
    + split; [exact Hcat |].
      intros H. destruct (Hinv H) as [H' | [H' _]]; [exact H' | discriminate].
  - split; intros H; inversion H; subst.
    + apply MAltL. now apply IH1.
    + apply MAltR. now apply IH2.
    + apply MAltL. now apply IH1.
    + apply MAltR. now apply IH2.
  - split.
    + intros H. apply cat_inv in H as [s1 [s2 [-> [H1 H2]]]].
      apply IH in H1. exact (MStarS H1 H2).
    + intros H. apply star_cons in H as [s1 [s2 [-> [H1 H2]]]].
      apply IH in H1. exact (MCat H1 H2).
Qed.

Lemma fullmatch_iff (r : regex) (s : str) :
  fullmatch r s = true <-> matches r s.
Proof.
  revert r; induction s as [|c s IH]; intros r; simpl.
  - apply nullable_iff.
  - rewrite IH. apply deriv_iff.
Qed.

Lemma match_iff (r : regex) (s : str) :
  match_ r s = true <-> exists mid post, s = mid ++ post /\ matches r mid.
Proof.
  revert r; induction s as [|c s IH]; intros r; simpl.
  - rewrite orb_false_r, nullable_iff. split.
    + intros H. now exists [], [].
    + intros [mid [post [E H]]]. symmetry in E.
      apply app_eq_nil in E as [-> _]. exact H.
  - rewrite orb_true_iff, nullable_iff, IH. split.
    + intros [H | [mid [post [-> H]]]].
      * now exists [], (c :: s).
      * exists (c :: mid), post. split; [reflexivity | now apply deriv_iff].
    + intros [mid [post [E H]]]. destruct mid as [|a mid]; simpl in E.
      * now left.
      * injection E as <- ->. right. exists mid, post.
        split; [reflexivity | now apply deriv_iff].
Qed.

Lemma search_iff (r : regex) (s : str) : search r s = true <-> found r s.
Proof.
  unfold found. induction s as [|c s IH]; cbn [search].
  - rewrite orb_false_r, match_iff. split.
    + intros [mid [post [E H]]]. now exists [], mid, post.
    + intros [pre [mid [post [E H]]]]. destruct pre; [|discriminate].
      now exists mid, post.
  - rewrite orb_true_iff, match_iff, IH. split.
    + intros [[mid [post [E H]]] | [pre [mid [post [E H]]]]].
      * now exists [], mid, post.
      * exists (c :: pre), mid, post. split; [now rewrite E | exact H].
    + intros [pre [mid [post [E H]]]]. destruct pre as [|a pre]; simpl in E.
      * left. now exists mid, post.
      * injection E as _ E. right. now exists pre, mid, post.
Qed.

(** ** The command policy *)

Lemma blocked_hit_iff (y : str) :
  blocked_hit y = true <->
  exists b, In b Settings.BLOCKED_COMMANDS /\ substring b y.
Proof.
  unfold blocked_hit, substring. rewrite existsb_exists.
  split; intros [b [Hb H]]; exists b; split; auto; now apply contains_iff.
Qed.

Lemma pattern_hit_iff (y : str) :
  pattern_hit y = true <-> exists r, In r dangerous_patterns /\ found r y.
Proof.
  unfold pattern_hit. rewrite existsb_exists.
  split; intros [r [Hr H]]; exists r; split; auto; now apply search_iff.
Qed.

Lemma prefix_hit_iff (y : str) :
  prefix_hit y = true <-> exists p, In p allowed_prefixes /\ has_prefix p y.
Proof.
  unfold prefix_hit, has_prefix. rewrite existsb_exists.
  split; intros [q [Hq H]]; exists q; split; auto; now apply startswith_iff.
Qed.

Lemma is_command_allowed_iff (x : str) :
  is_command_allowed x = true <->
  blocked_hit (strip (lower x)) = false /\
  pattern_hit (strip (lower x)) = false /\
  prefix_hit (strip (lower x)) = true.
Proof.
  unfold is_command_allowed.
  destruct (blocked_hit _), (pattern_hit _), (prefix_hit _);
    intuition discriminate.
Qed.

Lemma not_true_false {b : bool} {P : Prop} :
  (b = true <-> P) -> (b = false <-> ~ P).
Proof. destruct b; intuition discriminate. Qed.

(** C2.  Whenever [is_command_allowed] accepts a command, its lower-cased,
    stripped text starts with one of the allow prefixes, contains none of the
    blocklist strings (so a command holding a blocked string is never accepted,
    allow prefix or not) and has no match of any of the seven dangerous
    patterns. *)
Theorem allowed_implies_prefix_and_no_block (x : str) :
  is_command_allowed x = true ->
  let y := strip (lower x) in
  (exists p, In p allowed_prefixes /\ has_prefix p y) /\
  (forall b, In b Settings.BLOCKED_COMMANDS -> ~ substring b y) /\
  (forall r, In r dangerous_patterns -> ~ found r y) /\
  List.length dangerous_patterns = 7.
Proof.
  intros H y. apply is_command_allowed_iff in H as [Hb [Hp Ha]]. fold y in Hb, Hp, Ha.
  repeat split.
  - now apply prefix_hit_iff.
  - intros b Hin Hsub.
    apply (not_true_false (blocked_hit_iff y)) in Hb. apply Hb. now exists b.
  - intros r Hin Hf.
    apply (not_true_false (pattern_hit_iff y)) in Hp. apply Hp. now exists r.
Qed.

Lemma allowed_implies_prefix_and_no_block_witness :
  is_command_allowed (lit "ls -la /home") = true /\
  (exists p, In p allowed_prefixes /\ has_prefix p (lit "ls -la /home")) /\
  (forall b, In b Settings.BLOCKED_COMMANDS -> ~ substring b (lit "ls -la /home")).
Proof.
  assert (H : is_command_allowed (lit "ls -la /home") = true) by reflexivity.
  split; [exact H |].
  destruct (allowed_implies_prefix_and_no_block (lit "ls -la /home") H)
    as [Hp [Hb _]].
  split; [exact Hp | exact Hb].
Defined.

(** C10.  The blocklist scan is substring containment over the lower-cased,
    stripped command: a command whose text contains a blocked string anywhere
    is rejected, whatever it starts with; [cat address.txt] is rejected through
    the [dd] of [address]. *)
Theorem blocked_substring_rejected (x b : str) :
  In b Settings.BLOCKED_COMMANDS ->
  substring b (strip (lower x)) ->
  is_command_allowed x = false.
Proof.
  intros Hin Hsub. unfold is_command_allowed.
  assert (H : blocked_hit (strip (lower x)) = true)
    by (apply blocked_hit_iff; now exists b).
  now rewrite H.
Qed.

Lemma blocked_substring_rejected_witness :
  startswith (lit "cat ") (strip (lower (lit "cat address.txt"))) = true /\
  is_command_allowed (lit "cat address.txt") = false.
Proof.
  split; [reflexivity |].
  apply (blocked_substring_rejected (lit "cat address.txt") (lit "dd")).
  - simpl. tauto.
  - exists (lit "cat a"), (lit "ress.txt"). reflexivity.
Defined.

(** C6, as the design document states it, fails: [lsblk] passes both scans
    and is accepted, though its first token is not an allow-list verb. *)
Lemma first_token_rule_fails :
  ~ (forall x : str,
       blocked_hit (strip (lower x)) = false ->
       pattern_hit (strip (lower x)) = false ->
       (is_command_allowed x = true <->
        Design.first_token_is_verb (strip (lower x)) = true)).
Proof.
  intros H.
  specialize (H (lit "lsblk") eq_refl eq_refl) as [H _].
  specialize (H eq_refl). vm_compute in H. discriminate.
Qed.

(** C6, amended.  A command that passes the blocklist and dangerous-pattern
    scans is accepted exactly when its lower-cased, stripped text starts with
    one of the allow prefixes, as a plain string prefix. *)
Theorem allowed_iff_string_prefix (x : str) :
  (forall b, In b Settings.BLOCKED_COMMANDS -> ~ substring b (strip (lower x))) ->
  (forall r, In r dangerous_patterns -> ~ found r (strip (lower x))) ->
  (is_command_allowed x = true <->
   exists p, In p allowed_prefixes /\ has_prefix p (strip (lower x))).
Proof.
  intros Hb Hp. rewrite is_command_allowed_iff, prefix_hit_iff.
  assert (B : blocked_hit (strip (lower x)) = false).
  { apply (not_true_false (blocked_hit_iff _)). intros [b [Hin Hs]].
    exact (Hb b Hin Hs). }
  assert (P : pattern_hit (strip (lower x)) = false).
  { apply (not_true_false (pattern_hit_iff _)). intros [r [Hin Hf]].
    exact (Hp r Hin Hf). }
  tauto.
Qed.

Lemma allowed_iff_string_prefix_witness :
  is_command_allowed (lit "lsblk") = true <->
  exists p, In p allowed_prefixes /\ has_prefix p (strip (lower (lit "lsblk"))).
Proof.
  apply (allowed_iff_string_prefix (lit "lsblk")).
  - intros b Hin Hs.
    assert (H : blocked_hit (strip (lower (lit "lsblk"))) = true)
      by (apply blocked_hit_iff; now exists b).
    vm_compute in H. discriminate.
  - intros r Hin Hf.
    assert (H : pattern_hit (strip (lower (lit "lsblk"))) = true)
      by (apply pattern_hit_iff; now exists r).
    vm_compute in H. discriminate.
Defined.

(** ** Sanitising *)

Lemma is_meta_iff (c : ascii) : is_meta c = true <-> In c metachars.
Proof.
  unfold is_meta. rewrite existsb_exists. split.
  - intros [a [Ha E]]. apply Ascii.eqb_eq in E. now subst.
  - intros H. exists c. split; [exact H | apply Ascii.eqb_refl].
Qed.

Lemma remove_meta_free (s : str) : meta_free (remove_meta s).
Proof.
  apply Forall_forall. intros c Hin Hm.
  apply filter_In in Hin as [_ Hc]. apply is_meta_iff in Hm.
  rewrite Hm in Hc. discriminate.
Qed.

Lemma remove_meta_id (s : str) : meta_free s -> remove_meta s = s.
Proof.
  induction 1 as [|c s Hc _ IH]; simpl; [reflexivity |].
  destruct (is_meta c) eqn:E.
  - apply is_meta_iff in E. contradiction.
  - simpl. now rewrite IH.
Qed.

Lemma lstrip_meta_free (s : str) : meta_free s -> meta_free (lstrip s).
Proof.
  induction 1 as [|c s Hc Hs IH]; simpl; [constructor |].
  destruct (isspace c); [exact IH | now constructor].
Qed.

Lemma rstrip_meta_free (s : str) : meta_free s -> meta_free (rstrip s).
Proof.
  induction 1 as [|c s Hc Hs IH]; simpl; [constructor |].
  destruct (rstrip s) as [|a t].
  - destruct (isspace c); repeat constructor; exact Hc.
  - now constructor.
Qed.

Lemma sub_ws_meta_free (b : bool) (s : str) :
  meta_free s -> meta_free (sub_ws b s).
Proof.
  intros H. revert b. induction H as [|c s Hc Hs IH]; intros b; simpl;
    [constructor |].
  destruct (isspace c).
  - destruct b; [apply IH |]. constructor; [| apply IH].
    vm_compute. intuition discriminate.
  - constructor; [exact Hc | apply IH].
Qed.

Lemma rstrip_snoc (u : str) (d : ascii) :
  isspace d = false -> rstrip (u ++ [d]) = u ++ [d].
Proof.
  intros Hd. induction u as [|a u IH]; simpl.
  - now rewrite Hd.
  - rewrite IH. destruct (u ++ [d]) eqn:E; [|reflexivity].
    apply app_eq_nil in E as [_ E]. discriminate.
Qed.

Lemma rstrip_shape (s : str) :
  rstrip s = [] \/ exists u d, rstrip s = u ++ [d] /\ isspace d = false.
Proof.
  induction s as [|a s IH]; simpl; [now left |].
  destruct IH as [-> | [u [d [-> Hd]]]].
  - destruct (isspace a) eqn:E; [now left |].
    right. now exists [], a.
  - right. exists (a :: u), d. split; [|exact Hd].
    destruct (u ++ [d]) eqn:E; [|simpl; now rewrite E].
    apply app_eq_nil in E as [_ E]. discriminate.
Qed.

Lemma rstrip_head (c : ascii) (t : str) :
  isspace c = false -> exists t', rstrip (c :: t) = c :: t'.
Proof.
  intros Hc. simpl. destruct (rstrip t) as [|a t'].
  - rewrite Hc. now exists [].
  - now exists (a :: t').
Qed.

Lemma lstrip_shape (s : str) :
  lstrip s = [] \/ exists c t, lstrip s = c :: t /\ isspace c = false.
Proof.
  induction s as [|a s IH]; simpl; [now left |].
  destruct (isspace a) eqn:E; [exact IH |].
  right. now exists a, s.
Qed.

Lemma strip_trimmed (s : str) : trimmed (strip s).
Proof.
  unfold strip.
  destruct (lstrip_shape s) as [-> | [c [t [-> Hc]]]]; [now left |].
  destruct (rstrip_head c t Hc) as [t' E].
  destruct (rstrip_shape (c :: t)) as [E' | [u [d [E' Hd]]]].
  - rewrite E in E'. discriminate.
  - right. split.
    + exists c, t'. now split.
    + exists u, d. now split.
Qed.

Lemma strip_of_trimmed (s : str) : trimmed s -> strip s = s.
Proof.
  intros [-> | [[c [t [E Hc]]] [u [d [E' Hd]]]]]; [reflexivity |].
  unfold strip.
  assert (L : lstrip s = s) by (subst s; simpl; now rewrite Hc).
  rewrite L, E'. now apply rstrip_snoc.
Qed.

Lemma sub_ws_snoc (b : bool) (u : str) (d : ascii) :
  isspace d = false -> sub_ws b (u ++ [d]) = sub_ws b u ++ [d].
Proof.
  intros Hd. revert b. induction u as [|a u IH]; intros b; simpl.
  - now rewrite Hd.
  - destruct (isspace a); [destruct b |]; simpl; now rewrite IH.
Qed.

Lemma sub_ws_trimmed (s : str) : trimmed s -> trimmed (sub_ws false s).
Proof.
  intros [-> | [[c [t [E Hc]]] [u [d [E' Hd]]]]]; [now left |].
  right. split.
  - subst s. simpl. rewrite Hc. now exists c, (sub_ws false t).
  - rewrite E', (sub_ws_snoc false u d Hd). now exists (sub_ws false u), d.
Qed.

Lemma sub_ws_idem (s : str) :
  (forall b, sub_ws false (sub_ws b s) = sub_ws b s) /\
  sub_ws true (sub_ws true s) = sub_ws true s.
Proof.
  induction s as [|c s [IH1 IH2]]; simpl; [now split |].
  destruct (isspace c) eqn:E.
  - split; [|exact IH2]. intros [|]; [apply IH1 |].
    simpl. now rewrite IH2.
  - split; [intros b |]; simpl; rewrite E; now rewrite IH1.
Qed.

(** Trimming and collapsing white space, the first half of
    [sanitize_command], is idempotent. *)
Lemma normalize_idem (s : str) :
  sub_ws false (strip (sub_ws false (strip s))) = sub_ws false (strip s).
Proof.
  rewrite (strip_of_trimmed _ (sub_ws_trimmed _ (strip_trimmed s))).
  apply (proj1 (sub_ws_idem _)).
Qed.

Lemma normalize_meta_free (s : str) :
  meta_free s -> meta_free (sub_ws false (strip s)).
Proof.
  intros H. apply sub_ws_meta_free. unfold strip.
  now apply rstrip_meta_free, lstrip_meta_free.
Qed.

(** C5.  None of the characters [; & | ` $ < >] occurs in the output of
    [sanitize_command]. *)
Theorem sanitize_output_has_no_metachar (x : str) :
  Forall (fun c => ~ In c (lit ";&|`$<>")) (sanitize_command x).
Proof. apply remove_meta_free. Qed.

(** C4, as stated, fails: removing a metacharacter that stood between two
    spaces leaves a double space, which a second pass collapses. *)
Lemma sanitize_not_idempotent :
  sanitize_command (sanitize_command (lit "a ; b"))
  <> sanitize_command (lit "a ; b").
Proof. vm_compute. discriminate. Qed.

(** *** Sanitising, word by word *)

Lemma rstrip_cons_word (c : ascii) (t : str) :
  isspace c = false -> rstrip (c :: t) = c :: rstrip t.
Proof. intros H. simpl. rewrite H. now destruct (rstrip t). Qed.

Lemma rstrip_cons_space (c : ascii) (t : str) :
  isspace c = true ->
  (rstrip t = [] -> rstrip (c :: t) = []) /\
  (rstrip t <> [] -> rstrip (c :: t) = c :: rstrip t).
Proof.
  intros H. simpl. rewrite H. destruct (rstrip t); split; congruence.
Qed.

Lemma join_cons_char (c : ascii) (w : str) (r : list str) :
  join ((c :: w) :: r) = c :: join (w :: r).
Proof. now destruct r. Qed.

Lemma join_cons_word (w : str) (l : list str) :
  join (w :: l) = match l with [] => w | _ :: _ => w ++ " "%char :: join l end.
Proof. now destruct l. Qed.

(** Trimming the right end and collapsing white space, read off the words. *)
Lemma collapse_words (s : str) :
  (rstrip s = [] <-> words s = []) /\
  sub_ws true (rstrip s) = join (words s) /\
  sub_ws false (rstrip s)
  = (if snd (split_ws s) then join (words s)
     else match words s with
          | [] => []
          | _ :: _ => " "%char :: join (words s)
          end) /\
  (snd (split_ws s) = true -> words s <> []).
Proof.
  unfold words. induction s as [|c t [IH0 [IH1 [IH2 IH3]]]].
  - cbn. repeat split; congruence.
  - cbn [split_ws]. destruct (split_ws t) as [ws ins]. cbn [fst snd] in *.
    destruct (isspace c) eqn:E; cbn [fst snd].
    + destruct (rstrip_cons_space c t E) as [R0 R1].
      destruct ws as [|w r].
      * rewrite R0 by now apply IH0. cbn. repeat split; congruence.
      * assert (N : rstrip t <> []) by (intros N; apply IH0 in N; discriminate).
        rewrite (R1 N). cbn [sub_ws]. rewrite E.
        split; [split; discriminate |].
        split; [exact IH1 |]. split; [|discriminate]. now rewrite IH1.
    + rewrite (rstrip_cons_word c t E). cbn [sub_ws]. rewrite E, IH2.
      destruct ins.
      * destruct ws as [|w r]; [now specialize (IH3 eq_refl) |].
        cbn [fst snd]. rewrite join_cons_char.
        repeat split; try discriminate; reflexivity.
      * assert (G : (if false then ws else ws) = ws) by reflexivity.
        replace (match ws with
                 | [] | _ => ([c] :: ws, true)
                 end) with ([c] :: ws, true) by now destruct ws.
        cbn [fst snd]. rewrite join_cons_word.
        repeat split; try discriminate; now destruct ws.
Qed.

Lemma normalize_skips_lstrip (x : str) :
  sub_ws false (strip x) = sub_ws true (rstrip x).
Proof.
  unfold strip. induction x as [|c t IH]; [reflexivity |].
  cbn [lstrip]. destruct (isspace c) eqn:E.
  - rewrite IH. destruct (rstrip_cons_space c t E) as [R0 R1].
    destruct (rstrip t) as [|a t'] eqn:R.
    + now rewrite R0.
    + rewrite R1 by discriminate. cbn [sub_ws]. now rewrite E.
  - rewrite (rstrip_cons_word c t E). cbn [sub_ws]. now rewrite E.
Qed.

Lemma normalize_words (x : str) : sub_ws false (strip x) = join (words x).
Proof.
  rewrite normalize_skips_lstrip. apply (proj1 (proj2 (collapse_words x))).
Qed.

Lemma remove_meta_join (l : list str) :
  remove_meta (join l) = join (map remove_meta l).
Proof.
  induction l as [|w l IH]; [reflexivity |].
  cbn [map]. rewrite !join_cons_word. destruct l as [|w' l]; [reflexivity |].
  unfold remove_meta at 1. rewrite filter_app. cbn [filter].
  change (negb (is_meta " ")) with true. cbv iota.
  fold (remove_meta w) (remove_meta (join (w' :: l))). now rewrite IH.
Qed.

Lemma sanitize_as_words (x : str) :
  sanitize_command x = join (map remove_meta (words x)).
Proof.
  unfold sanitize_command. now rewrite normalize_words, remove_meta_join.
Qed.

Lemma split_solid (w : str) :
  solid w ->
  split_ws w = match w with [] => ([], false) | _ :: _ => ([w], true) end.
Proof.
  induction 1 as [|c w Hc Hw IH]; [reflexivity |].
  cbn [split_ws]. rewrite IH, Hc. now destruct w.
Qed.

Lemma split_solid_space (w s : str) :
  solid w ->
  split_ws (w ++ " "%char :: s)
  = match w with
    | [] => (words s, false)
    | _ :: _ => (w :: words s, true)
    end.
Proof.
  induction 1 as [|c w Hc Hw IH].
  - cbn. unfold words. now destruct (split_ws s).
  - cbn [app split_ws]. rewrite IH, Hc. now destruct w.
Qed.

Lemma words_join (l : list str) :
  Forall solid l -> words (join l) = filter nonempty l.
Proof.
  induction 1 as [|w l Hw Hl IH]; [reflexivity |].
  rewrite join_cons_word. destruct l as [|w' l].
  - unfold words. rewrite (split_solid w Hw). now destruct w.
  - unfold words at 1. rewrite (split_solid_space w _ Hw).
    cbn [filter]. destruct w; cbn [fst nonempty]; now rewrite IH.
Qed.

Lemma words_solid (s : str) :
  Forall (fun w => w <> [] /\ solid w) (words s).
Proof.
  unfold words. induction s as [|c t IH]; [constructor |].
  cbn [split_ws]. destruct (split_ws t) as [ws ins]. cbn [fst] in *.
  destruct (isspace c) eqn:E; [exact IH |].
  destruct ins, ws as [|w r]; cbn [fst].
  - repeat constructor; [discriminate | exact E].
  - inversion IH as [|? ? [_ Sw] Hr]; subst.
    constructor; [|exact Hr]. split; [discriminate | now constructor].
  - repeat constructor; [discriminate | exact E].
  - constructor; [|exact IH]. split; [discriminate | now repeat constructor].
Qed.

Lemma remove_meta_solid (w : str) : solid w -> solid (remove_meta w).
Proof.
  unfold solid, remove_meta. rewrite !Forall_forall. intros H c Hin.
  apply filter_In in Hin as [Hin _]. now apply H.
Qed.

Lemma remove_meta_idem (w : str) : remove_meta (remove_meta w) = remove_meta w.
Proof. apply remove_meta_id, remove_meta_free. Qed.

Lemma join_length (l : list str) :
  List.length (join l) = total_length l + (List.length l - 1).
Proof.
  induction l as [|w l IH]; [reflexivity |].
  rewrite join_cons_word. destruct l as [|w' l]; [simpl; lia |].
  rewrite length_app. cbn [List.length total_length] in *. rewrite IH. lia.
Qed.

Lemma total_length_filter (l : list str) :
  total_length (filter nonempty l) = total_length l.
Proof.
  induction l as [|w l IH]; [reflexivity |].
  cbn [filter]. destruct w; cbn [nonempty total_length]; now rewrite IH.
Qed.

Lemma filter_all_length {A} (p : A -> bool) (l : list A) :
  List.length (filter p l) = List.length l -> filter p l = l.
Proof.
  induction l as [|a l IH]; [reflexivity |]. cbn [filter].
  pose proof (filter_length_le p l) as Le.
  destruct (p a); cbn [List.length]; intros H; [|lia].
  f_equal. apply IH. lia.
Qed.

Lemma join_filter_iff (l : list str) :
  join (filter nonempty l) = join l <->
  (List.length l <= 1 \/ forall w, In w l -> w <> []).
Proof.
  split.
  - intros H. apply (f_equal (@List.length ascii)) in H.
    rewrite !join_length, total_length_filter in H.
    pose proof (filter_length_le nonempty l) as Le.
    destruct (Nat.eq_dec (List.length (filter nonempty l)) (List.length l))
      as [Eq | Ne]; [right | left; lia].
    apply filter_all_length in Eq. intros w Hin. rewrite <- Eq in Hin.
    apply filter_In in Hin as [_ N]. now destruct w.
  - intros [L | N].
    + destruct l as [|w [|w' l]]; [reflexivity | now destruct w |].
      simpl in L. lia.
    + f_equal. induction l as [|w l IH]; [reflexivity |]. cbn [filter].
      destruct w; [now specialize (N [] (or_introl eq_refl)) |].
      cbn [nonempty]. f_equal. apply IH. intros v Hin. apply N. now right.
Qed.

Lemma remove_meta_nil_iff (w : str) : remove_meta w = [] <-> only_meta w.
Proof.
  unfold only_meta. induction w as [|c w IH]; [split; constructor |].
  cbn [remove_meta filter]. destruct (is_meta c) eqn:E; cbn [negb].
  - fold (remove_meta w). rewrite IH. apply is_meta_iff in E. split.
    + intros H. now constructor.
    + intros H. now inversion H.
  - split; [discriminate |]. intros H. inversion H as [|? ? Hc _]; subst.
    apply is_meta_iff in Hc. congruence.
Qed.

(** C4, amended.  [sanitize_command] applied twice gives what it gives once
    exactly when the input has at most one white-space-separated word, or
    none of its words is made of the characters [; & | ` $ < >] only.  Such
    a word between two others is what leaves the double space. *)
Theorem sanitize_idempotent_iff_no_meta_word (x : str) :
  sanitize_command (sanitize_command x) = sanitize_command x <->
  (List.length (words x) <= 1 \/
   forall w, In w (words x) -> ~ Forall (fun c => In c (lit ";&|`$<>")) w).
Proof.
  set (l := map remove_meta (words x)).
  assert (S1 : sanitize_command x = join l) by apply sanitize_as_words.
  assert (Sol : Forall solid l).
  { unfold l. apply Forall_forall. intros w Hin.
    apply in_map_iff in Hin as [v [<- Hv]]. apply remove_meta_solid.
    pose proof (words_solid x) as W. rewrite Forall_forall in W.
    now apply W. }
  assert (S2 : sanitize_command (sanitize_command x) = join (filter nonempty l)).
  { rewrite S1 at 1. rewrite sanitize_as_words, (words_join l Sol). f_equal.
    unfold l. clear. induction (words x) as [|w ws IH]; [reflexivity |].
    cbn [map filter]. destruct (nonempty (remove_meta w));
      cbn [map]; now rewrite ?remove_meta_idem, IH. }
  rewrite S2, S1, join_filter_iff. unfold l. rewrite length_map.
  split; (intros [L | N]; [now left | right]).
  - intros w Hin M. apply (N (remove_meta w)).
    + now apply in_map.
    + now apply remove_meta_nil_iff.
  - intros w Hin E. apply in_map_iff in Hin as [v [<- Hv]].
    apply (N v Hv). now apply remove_meta_nil_iff.
Qed.

Lemma sanitize_idempotent_iff_no_meta_word_witness :
  sanitize_command (sanitize_command (lit "  cat  a|grep b;  "))
  = sanitize_command (lit "  cat  a|grep b;  ").
Proof.
  apply (proj2 (sanitize_idempotent_iff_no_meta_word
                  (lit "  cat  a|grep b;  "))).
  right. intros w Hin M. cbn in Hin.
  destruct Hin as [<- | [<- | [<- | []]]];
    apply Forall_inv in M; cbn in M; intuition discriminate.
Defined.

(** The words of a command line. *)
Example sample_words :
  words (lit "  cat   a|grep b ; ")
  = [lit "cat"; lit "a|grep"; lit "b"; lit ";"].
Proof. reflexivity. Qed.

(** Metacharacters inside a word do no harm to idempotence. *)
Example sanitize_idempotent_samples :
  Forall (fun x => sanitize_command (sanitize_command x) = sanitize_command x)
         [lit "ls;pwd"; lit "echo $(id)"; lit "cat a|grep b"].
Proof. repeat constructor. Qed.

(** ** The session executor and the execute route *)

Import Py.

(** A rejected command raises before a client exists: the world is untouched. *)
Lemma manager_rejects_without_io (E : env) (host user : str) (port : Z)
    (pw key : option str) (command : str) (w : world) :
  is_command_allowed command = false ->
  SSHManager.execute_command E host user port pw key command w
  = (inl (Exn Exception
            (lit "Error executing command: "
             ++ lit "Command not allowed: " ++ command)), w).
Proof.
  intros H. unfold SSHManager.execute_command, SSHManager.in_frame,
    try_finally, try_except, SSHManager.close_if_client, raise.
  rewrite H. cbn. now destruct w.
Qed.

(** C1.  When the policy rejects the sanitised command, the session executor
    raises the error that carries the policy reason and the route answers with
    an HTTP error, and in both the world is left as it was: no client is
    created, nothing is sent. *)
Theorem rejected_command_reaches_no_network (E : env) (u : App.user)
    (server_id : str) (srv : App.server) (raw : str) (w : world) :
  is_command_allowed (sanitize_command raw) = false ->
  (forall host user port pw key,
     SSHManager.execute_command E host user port pw key (sanitize_command raw) w
     = (inl (Exn Exception
               (lit "Error executing command: "
                ++ lit "Command not allowed: " ++ sanitize_command raw)), w)) /\
  (exists status detail,
     App.execute_command E u server_id (Some srv) raw w
     = (App.HTTPException status detail, w)).
Proof.
  intros H. split.
  - intros. now apply manager_rejects_without_io.
  - unfold App.execute_command, bind.
    rewrite (manager_rejects_without_io E _ _ _ _ _ _ w H). cbn.
    eauto.
Qed.

Lemma rejected_command_reaches_no_network_witness :
  exists status detail,
    App.execute_command Sample.env_up Sample.alice (lit "s1")
      (Some Sample.srv_password) (lit "cat /etc/passwd; rm -rf /") initial
    = (App.HTTPException status detail, initial).
Proof.
  apply (rejected_command_reaches_no_network Sample.env_up Sample.alice
           (lit "s1") Sample.srv_password (lit "cat /etc/passwd; rm -rf /")
           initial).
  reflexivity.
Defined.

(** C3, on the code: a policy violation and a missing credential both leave
    the route as HTTP 500, whatever the environment; the [ValueError] raised
    for them is re-raised as a plain [Exception] by the session executor, so
    the route's [except ValueError] arm does not see it. *)
Theorem policy_violation_and_missing_credential_give_500
    (E : env) (w : world) :
  App.status_of (fst (App.execute_command E Sample.alice (lit "s1")
                        (Some Sample.srv_password) (lit "shutdown -h now") w))
  = 500%Z /\
  App.status_of (fst (App.execute_command E Sample.alice (lit "s2")
                        (Some Sample.srv_no_credential) (lit "ls -la /home") w))
  = 500%Z.
Proof.
  split.
  - unfold App.execute_command, bind.
    rewrite manager_rejects_without_io by reflexivity. reflexivity.
  - reflexivity.
Qed.

(** Unfold one run of the session executor down to the oracle answers, and
    split it into its paths. *)
Ltac unfold_run :=
  cbv beta iota zeta delta
    [SSHManager.execute_command SSHManager.test_connection SSHManager.in_frame
     SSHManager.call SSHManager.new_client SSHManager.close
     SSHManager.close_if_client SSHManager.set_missing_host_key_policy
     SSHManager.log SSHManager.fw SSHManager.client
     try_finally try_except bind ret raise lift_opt
     trace next_client open_clients fst snd].

Ltac split_paths :=
  repeat (match goal with
          | |- context [negb ?b] =>
              is_var b; destruct b
          | |- context [match negb ?b with _ => _ end] =>
              destruct b eqn:?; cbn [negb]
          | |- context [match ?x with _ => _ end] =>
              lazymatch x with
              | context [match _ with _ => _ end] => fail
              | _ => destruct x eqn:?
              end
          end; unfold_run).

Ltac give_trace :=
  first [ symmetry; apply app_nil_r
        | rewrite <- !app_assoc; reflexivity ].

Ltac no_such_event :=
  let H := fresh in
  intros H; cbn in H; intuition (try discriminate; try congruence).

Ltac connect_events :=
  let ev := fresh "ev" in
  let Hin := fresh "Hin" in
  let Hc := fresh "Hc" in
  intros ev Hin Hc; rewrite <- ?app_assoc in Hin;
  apply in_app_or in Hin as [Hin | Hin]; [now left |]; right;
  cbn in Hin;
  repeat (destruct Hin as [<- | Hin]; [first [discriminate Hc | reflexivity] |]);
  contradiction.

(** Whatever goes wrong inside the session executor leaves it as a plain
    [Exception]: never as a [ValueError]. *)
Lemma manager_raises_plain_exception (E : env) (host user : str) (port : Z)
    (pw key : option str) (command : str) (w : world) (e : exn) :
  fst (SSHManager.execute_command E host user port pw key command w) = inl e ->
  exn_cls e = Exception.
Proof.
  destruct w as [t0 n o]. unfold_run. split_paths.
  all: intros H; first [discriminate H | now injection H as <-].
Qed.

(** C7.  [test_connection] always returns a boolean.  With neither a
    password nor a key (absent or empty) it returns [False] and the calls it
    made include none that reaches the network; and whenever a call of the
    SSH library raised, it returns [False]. *)
Theorem test_connection_returns_bool (E : env) (host user : str) (port : Z)
    (pw key : option str) (w : world) :
  exists b t,
    fst (SSHManager.test_connection E host user port pw key w) = inr b /\
    trace (snd (SSHManager.test_connection E host user port pw key w))
      = trace w ++ t /\
    (SSHManager.supplied key = None -> SSHManager.supplied pw = None ->
     b = false /\ existsb is_network t = false) /\
    ((exists e, In (EvRaised e) t) -> b = false).
Proof.
  destruct w as [t0 n o]. unfold_run. split_paths.
  all: do 2 eexists; split; [reflexivity |]; split; [give_trace |].
  all: split; [ try (intros; discriminate); intros _ _; split; reflexivity | ].
  all: first [ reflexivity | intros _; reflexivity
             | intros [e He]; revert He; no_such_event ].
Qed.

Lemma filter_fresh (n : nat) (o : list nat) :
  Forall (fun c => c < n) o ->
  filter (fun c' => negb (c' =? n)) (n :: o) = o.
Proof.
  intros H. simpl. rewrite Nat.eqb_refl. simpl.
  induction H as [|c o Hc _ IH]; simpl; [reflexivity |].
  destruct (c =? n) eqn:E.
  - apply Nat.eqb_eq in E. lia.
  - simpl. now rewrite IH.
Qed.

Lemma wf_next (t t' : list event) (n : nat) (o : list nat) :
  wf (World t n o) -> wf (World t' (S n) o).
Proof.
  unfold wf. simpl. intros H. eapply Forall_impl; [|exact H].
  simpl. intros. lia.
Qed.

Lemma closing_shape (t : list event) (n : nat) :
  (forall c, In (EvCreate c) t -> c = n) ->
  last t (EvCreate n) = EvClose n ->
  forall c, In (EvCreate c) t -> exists t0, t = t0 ++ [EvClose c].
Proof.
  intros Hc Hl c Hin. rewrite (Hc c Hin).
  exists (removelast t). rewrite <- Hl. apply app_removelast_last.
  intros ->. contradiction.
Qed.

(** C8.  On every path of [execute_command] and of [test_connection] the
    client, if one was created, is closed by the last call made before the
    function returns or raises: the set of open clients is what it was. *)
Theorem no_session_leaked (E : env) (host user : str) (port : Z)
    (pw key : option str) (command : str) (w : world) :
  wf w ->
  released w
    (snd (SSHManager.execute_command E host user port pw key command w)) /\
  released w (snd (SSHManager.test_connection E host user port pw key w)).
Proof.
  intros W. destruct w as [t0 n o]. unfold released.
  split; unfold_run; split_paths.
  all: rewrite ?(filter_fresh n o W).
  all: split; [reflexivity |];
       split; [first [exact W | exact (wf_next _ _ _ _ W)] |].
  all: eexists; split; [give_trace |].
  all: first [ solve [intros c []]
             | apply (closing_shape _ n);
               [intros c; no_such_event | reflexivity] ].
Qed.

Lemma no_session_leaked_witness :
  released initial
    (snd (SSHManager.execute_command Sample.env_rejecting (lit "10.0.0.5")
            (lit "root") 22 (Some (lit "hunter2")) None (lit "ls -la /home")
            initial)) /\
  released initial
    (snd (SSHManager.test_connection Sample.env_rejecting (lit "10.0.0.5")
            (lit "root") 22 (Some (lit "hunter2")) None initial)).
Proof.
  apply (no_session_leaked Sample.env_rejecting (lit "10.0.0.5") (lit "root")
           22 (Some (lit "hunter2")) None (lit "ls -la /home") initial).
  constructor.
Defined.

Lemma key_branch_ignores_password (E : env) (host user : str) (port : Z)
    (pw pw' key : option str) (command : str) (w : world) (k : str) :
  SSHManager.supplied key = Some k ->
  SSHManager.execute_command E host user port pw' key command w
  = SSHManager.execute_command E host user port pw key command w /\
  SSHManager.test_connection E host user port pw' key w
  = SSHManager.test_connection E host user port pw key w.
Proof.
  intros H. unfold SSHManager.execute_command, SSHManager.test_connection.
  now rewrite H.
Qed.

Ltac flatten_traces :=
  repeat match goal with
         | H : context [(_ ++ _) ++ _] |- _ => rewrite <- app_assoc in H
         end;
  cbn [app] in *.

(** What follows the loading of the key on one path of a call. *)
Ltac after_load :=
  eexists; split; [rewrite <- !app_assoc; reflexivity |];
  split;
  [ let H := fresh in
    intros H; flatten_traces;
    first [congruence | eexists; reflexivity]
  | let e := fresh in let H := fresh in
    intros e H; flatten_traces;
    first [congruence
          | match goal with
            | H1 : ?x = Some _, H2 : ?x = Some _ |- _ =>
                rewrite H1 in H2; injection H2 as <-; reflexivity
            end ] ].

(** C9.  For an allowed command: when a key is supplied (not [None], not
    empty), the password plays no part in either function, every connection
    attempt of the call authenticates with the key, and the call does use the
    key: it creates a client, loads the key and, unless the loading raises
    (then the client is closed and nothing else happens), connects with it
    next.  With no key and a password supplied, the call connects with the
    password.  The missing-credential outcome (the error of
    [execute_command], [False] from [test_connection], after creating and
    closing a client and nothing else) occurs exactly when both the key and
    the password are absent or empty. *)
Theorem key_takes_precedence (E : env) (host user : str) (port : Z)
    (pw key : option str) (command : str) (w : world) :
  is_command_allowed command = true ->
  let c := next_client w in
  let run := SSHManager.execute_command E host user port pw key command w in
  let probe := SSHManager.test_connection E host user port pw key w in
  let bare := trace w ++ [EvCreate c; EvSetPolicy c; EvClose c] in
  (forall k, SSHManager.supplied key = Some k ->
     let loaded := trace w ++ [EvCreate c; EvSetPolicy c; EvLoadKey k] in
     (forall pw',
        SSHManager.execute_command E host user port pw' key command w = run /\
        SSHManager.test_connection E host user port pw' key w = probe) /\
     (forall ev, In ev (trace (snd run)) -> is_connect ev = true ->
        In ev (trace w) \/
        ev = EvConnect c host user port (Pkey k) Settings.SSH_TIMEOUT) /\
     (forall ev, In ev (trace (snd probe)) -> is_connect ev = true ->
        In ev (trace w) \/
        ev = EvConnect c host user port (Pkey k) 10%Z) /\
     (exists t,
        trace (snd run) = loaded ++ t /\
        (from_private_key E loaded = None ->
         exists t', t = EvConnect c host user port (Pkey k)
                                  Settings.SSH_TIMEOUT :: t') /\
        (forall e, from_private_key E loaded = Some e ->
         t = [EvRaised e; EvClose c])) /\
     (exists t,
        trace (snd probe) = loaded ++ t /\
        (from_private_key E loaded = None ->
         exists t', t = EvConnect c host user port (Pkey k) 10%Z :: t') /\
        (forall e, from_private_key E loaded = Some e ->
         t = [EvRaised e; EvClose c]))) /\
  ((fst run = inl (Exn Exception (lit "Error executing command: "
                                  ++ SSHManager.missing_msg)) /\
    trace (snd run) = bare)
   <-> (SSHManager.supplied key = None /\ SSHManager.supplied pw = None)) /\
  ((fst probe = inr false /\ trace (snd probe) = bare)
   <-> (SSHManager.supplied key = None /\ SSHManager.supplied pw = None)) /\
  (forall p, SSHManager.supplied key = None ->
     SSHManager.supplied pw = Some p ->
     (exists t,
        trace (snd run)
        = trace w ++ [EvCreate c; EvSetPolicy c;
                      EvConnect c host user port (Password p)
                                Settings.SSH_TIMEOUT] ++ t) /\
     (exists t,
        trace (snd probe)
        = trace w ++ [EvCreate c; EvSetPolicy c;
                      EvConnect c host user port (Password p) 10%Z] ++ t)).
Proof.
  intros A c run probe bare. subst c run probe bare.
  split; [| split; [| split]].
  - intros k Hk loaded. subst loaded. split; [| split; [| split; [| split]]].
    + intros pw'. now apply key_branch_ignores_password with (k := k).
    + destruct w as [t0 n o]. unfold_run. rewrite A, Hk. cbn [negb]. unfold_run.
      split_paths. all: connect_events.
    + destruct w as [t0 n o]. unfold_run. rewrite Hk. unfold_run.
      split_paths. all: connect_events.
    + destruct w as [t0 n o]. unfold_run. rewrite A, Hk. cbn [negb]. unfold_run.
      split_paths. all: after_load.
    + destruct w as [t0 n o]. unfold_run. rewrite Hk. unfold_run.
      split_paths. all: after_load.
  - destruct w as [t0 n o]. unfold_run. rewrite A. cbn [negb]. unfold_run.
    split_paths.
    all: split; [intros [H1 H2] | intros [H1 H2]; try discriminate].
    all: try (rewrite <- ?app_assoc in H2; apply app_inv_head in H2;
              discriminate H2).
    all: split; first [reflexivity | now rewrite <- !app_assoc].
  - destruct w as [t0 n o]. unfold_run.
    split_paths.
    all: split; [intros [H1 H2] | intros [H1 H2]; try discriminate].
    all: try (rewrite <- ?app_assoc in H2; apply app_inv_head in H2;
              discriminate H2).
    all: split; first [reflexivity | now rewrite <- !app_assoc].
  - intros p Hk Hp. split.
    + destruct w as [t0 n o]. unfold_run. rewrite A, Hk, Hp. cbn [negb].
      unfold_run. split_paths.
      all: eexists; rewrite <- !app_assoc; reflexivity.
    + destruct w as [t0 n o]. unfold_run. rewrite Hk, Hp. unfold_run.
      split_paths.
      all: eexists; rewrite <- !app_assoc; reflexivity.
Qed.

Lemma key_takes_precedence_witness :
  let run pw :=
    SSHManager.execute_command Sample.env_up (lit "10.0.0.5") (lit "root") 22
      pw (Some (lit "PEM")) (lit "ls -la /home") initial in
  run None = run (Some (lit "hunter2")) /\
  exists t,
    trace (snd (run (Some (lit "hunter2"))))
    = [EvCreate 0; EvSetPolicy 0; EvLoadKey (lit "PEM");
       EvConnect 0 (lit "10.0.0.5") (lit "root") 22 (Pkey (lit "PEM"))
                 Settings.SSH_TIMEOUT] ++ t.
Proof.
  destruct (key_takes_precedence Sample.env_up (lit "10.0.0.5") (lit "root")
              22 (Some (lit "hunter2")) (Some (lit "PEM"))
              (lit "ls -la /home") initial eq_refl) as [H _].
  destruct (H (lit "PEM") eq_refl) as [H1 [_ [_ [[t [Ht [Hc _]]] _]]]].
  split.
  - exact (proj1 (H1 None)).
  - destruct (Hc eq_refl) as [t' Et]. exists t'.
    rewrite Et in Ht. exact Ht.
Defined.

(** ** The sample inputs of the design document *)

Example sample_listing :
  sanitize_command (lit "ls -la /home") = lit "ls -la /home" /\
  is_command_allowed (lit "ls -la /home") = true.
Proof. split; reflexivity. Qed.

Example sample_shutdown : is_command_allowed (lit "shutdown -h now") = false.
Proof. reflexivity. Qed.

Example sample_chained_delete :
  sanitize_command (lit "cat /etc/passwd; rm -rf /")
  = lit "cat /etc/passwd rm -rf /" /\
  is_command_allowed (lit "cat /etc/passwd rm -rf /") = false.
Proof. split; reflexivity. Qed.

Example sample_prefix_of_longer_verb :
  is_command_allowed (lit "lsblk") = true /\
  is_command_allowed (lit "cat") = false.
Proof. split; reflexivity. Qed.

Example sample_probe_succeeds :
  fst (SSHManager.test_connection Sample.env_up (lit "10.0.0.5") (lit "root")
         22 (Some (lit "hunter2")) None initial) = inr true.
Proof. reflexivity. Qed.

Example sample_probe_rejected :
  SSHManager.test_connection Sample.env_rejecting (lit "10.0.0.5") (lit "root")
    22 (Some (lit "hunter2")) None initial
  = (inr false,
     World [EvCreate 0; EvSetPolicy 0;
            EvConnect 0 (lit "10.0.0.5") (lit "root") 22
                      (Password (lit "hunter2")) 10;
            EvRaised (Exn AuthenticationException (lit "Authentication failed."));
            EvClose 0] 1 []).
Proof. reflexivity. Qed.

Example sample_route_success :
  App.status_of
    (fst (App.execute_command Sample.env_up Sample.alice (lit "s1")
            (Some Sample.srv_password) (lit "ls -la /home") initial))
  = 200%Z.
Proof. reflexivity. Qed.

(* ================================================================== *)
(** * Further properties of the policy, the executor and the route *)

(** ** The command policy and the sanitiser *)

Ltac each_char c := destruct c as [[] [] [] [] [] [] [] []].

Lemma lower_char_idem (c : ascii) : lower_char (lower_char c) = lower_char c.
Proof. each_char c; reflexivity. Qed.

Lemma isspace_lower_char (c : ascii) : isspace (lower_char c) = isspace c.
Proof. each_char c; reflexivity. Qed.

Lemma lower_idem (s : str) : lower (lower s) = lower s.
Proof.
  unfold lower. rewrite map_map. apply map_ext. exact lower_char_idem.
Qed.

Lemma lstrip_lower (s : str) : lstrip (lower s) = lower (lstrip s).
Proof.
  induction s as [|c s IH]; simpl; [reflexivity |].
  rewrite isspace_lower_char. destruct (isspace c); [exact IH | reflexivity].
Qed.

Lemma rstrip_lower (s : str) : rstrip (lower s) = lower (rstrip s).
Proof.
  induction s as [|c s IH]; simpl; [reflexivity |].
  fold (lower s). rewrite IH, isspace_lower_char.
  destruct (rstrip s); simpl; [destruct (isspace c) |]; reflexivity.
Qed.

Lemma strip_lower (s : str) : strip (lower s) = lower (strip s).
Proof. unfold strip. now rewrite lstrip_lower, rstrip_lower. Qed.

Lemma strip_idem (s : str) : strip (strip s) = strip s.
Proof. apply strip_of_trimmed, strip_trimmed. Qed.

Lemma lstrip_blank_app (pre s : str) :
  blank pre -> lstrip (pre ++ s) = lstrip s.
Proof. induction 1 as [|c pre Hc _ IH]; simpl; [reflexivity | now rewrite Hc]. Qed.

Lemma rstrip_blank (post : str) :
  blank post -> rstrip post = [].
Proof.
  induction 1 as [|c post Hc _ IH]; simpl; [reflexivity |]. now rewrite IH, Hc.
Qed.

Lemma rstrip_app_blank (s post : str) :
  blank post -> rstrip (s ++ post) = rstrip s.
Proof.
  intros H. induction s as [|c s IH]; simpl.
  - now apply rstrip_blank.
  - now rewrite IH.
Qed.

Lemma lstrip_all_blank (s : str) :
  blank s -> lstrip s = [].
Proof. induction 1 as [|c s Hc _ IH]; simpl; [reflexivity | now rewrite Hc]. Qed.


Lemma strip_padding (p y q : str) :
  blank p -> blank q -> strip (p ++ y ++ q) = strip y.
Proof.
  intros Hp Hq. unfold strip. rewrite (lstrip_blank_app p _ Hp).
  induction y as [|a y IH]; simpl.
  - now rewrite (lstrip_all_blank q Hq).
  - destruct (isspace a); [exact IH |].
    change (a :: y ++ q) with ((a :: y) ++ q). now apply rstrip_app_blank.
Qed.

Lemma blank_lower (s : str) : blank s -> blank (lower s).
Proof.
  induction 1 as [|c s Hc _ IH]; simpl; constructor; [|exact IH].
  now rewrite isspace_lower_char.
Qed.

(** X1.  The policy does not see letter case or surrounding white space: a
    command that differs from [x] only in case, with any white space put
    before and after it, gets the decision of [x]. *)
Theorem policy_ignores_case_and_padding (pre x x' post : str) :
  blank pre -> blank post -> lower x' = lower x ->
  is_command_allowed (pre ++ x' ++ post) = is_command_allowed x.
Proof.
  intros Hpre Hpost E. unfold is_command_allowed.
  assert (S : strip (lower (pre ++ x' ++ post)) = strip (lower x)).
  { unfold lower. rewrite !map_app. fold (lower pre) (lower x') (lower post).
    rewrite E. apply strip_padding; now apply blank_lower. }
  now rewrite S.
Qed.

Lemma policy_ignores_case_and_padding_witness :
  is_command_allowed (lit "  ShutDown -h NOW ") = is_command_allowed (lit "shutdown -h now").
Proof.
  apply (policy_ignores_case_and_padding (lit "  ") (lit "shutdown -h now")
           (lit "ShutDown -h NOW") (lit " ")).
  - repeat constructor.
  - repeat constructor.
  - reflexivity.
Defined.

(** X2.  Default deny at the edge: the empty command and every command made
    of white space only are rejected. *)
Theorem blank_command_rejected (x : str) :
  blank x -> is_command_allowed x = false.
Proof.
  intros H. unfold is_command_allowed.
  assert (E : strip (lower x) = []).
  { unfold strip. now rewrite (lstrip_all_blank _ (blank_lower _ H)). }
  now rewrite E.
Qed.

Lemma blank_command_rejected_witness :
  is_command_allowed [] = false /\ is_command_allowed (lit "   ") = false.
Proof.
  split.
  - apply (blank_command_rejected []). constructor.
  - apply (blank_command_rejected (lit "   ")). repeat constructor.
Defined.

(** X3.  A second pass of [sanitize_command] reaches a fixed point: the
    output of one pass has no metacharacter left, and on such a string the
    function changes nothing more after it has run once. *)
Theorem sanitize_stable_after_two (x : str) :
  sanitize_command (sanitize_command (sanitize_command x))
  = sanitize_command (sanitize_command x).
Proof.
  set (y := sanitize_command x).
  assert (F : meta_free y) by apply remove_meta_free.
  assert (N : sanitize_command y = sub_ws false (strip y)).
  { unfold sanitize_command. apply remove_meta_id. now apply normalize_meta_free. }
  rewrite N. unfold sanitize_command. rewrite normalize_idem.
  apply remove_meta_id. now apply normalize_meta_free.
Qed.

Lemma lstrip_length (s : str) : List.length (lstrip s) <= List.length s.
Proof. induction s as [|c s IH]; simpl; [lia |]. destruct (isspace c); simpl; lia. Qed.

Lemma rstrip_length (s : str) : List.length (rstrip s) <= List.length s.
Proof.
  induction s as [|c s IH]; simpl; [lia |].
  destruct (rstrip s); [destruct (isspace c) |]; simpl in *; lia.
Qed.

Lemma sub_ws_length (b : bool) (s : str) :
  List.length (sub_ws b s) <= List.length s.
Proof.
  revert b. induction s as [|c s IH]; intros b; simpl; [lia |].
  destruct (isspace c); [destruct b |]; simpl;
    [specialize (IH true) | specialize (IH true) | specialize (IH false)]; lia.
Qed.

Lemma sub_ws_only_space (b : bool) (s : str) :
  Forall (fun c => isspace c = true -> c = " "%char) (sub_ws b s).
Proof.
  revert b. induction s as [|c s IH]; intros b; simpl; [constructor |].
  destruct (isspace c) eqn:E.
  - destruct b; [apply IH |]. constructor; [reflexivity | apply IH].
  - constructor; [| apply IH]. intros H. congruence.
Qed.

(** X4.  In the output of [sanitize_command] the only white-space character
    is the plain space (tabs, line feeds and the like are gone), and the output
    is never longer than the input. *)
Theorem sanitize_output_shape (x : str) :
  Forall (fun c => isspace c = true -> c = " "%char) (sanitize_command x) /\
  List.length (sanitize_command x) <= List.length x.
Proof.
  unfold sanitize_command, remove_meta. split.
  - apply Forall_forall. intros c Hin. apply filter_In in Hin as [Hin _].
    pose proof (sub_ws_only_space false (strip x)) as F.
    rewrite Forall_forall in F. now apply F.
  - pose proof (filter_length_le (fun c => negb (is_meta c)) (sub_ws false (strip x))).
    pose proof (sub_ws_length false (strip x)).
    pose proof (rstrip_length (lstrip x)). pose proof (lstrip_length x).
    unfold strip in *. lia.
Qed.

Lemma lit_inv (c : ascii) (s : str) : matches (Lit c) s -> s = [c].
Proof. intros H. now inversion H. Qed.

Lemma lower_char_meta (c : ascii) : is_meta (lower_char c) = is_meta c.
Proof. each_char c; reflexivity. Qed.

Lemma lower_meta_free (s : str) : meta_free s -> meta_free (lower s).
Proof.
  induction 1 as [|c s Hc _ IH]; simpl; constructor; [|exact IH].
  intros H. apply Hc. apply is_meta_iff. rewrite <- lower_char_meta.
  now apply is_meta_iff.
Qed.

Lemma sanitized_lower_meta_free (x : str) :
  meta_free (strip (lower (sanitize_command x))).
Proof.
  unfold strip. apply rstrip_meta_free, lstrip_meta_free, lower_meta_free,
    remove_meta_free.
Qed.

Lemma meta_free_not_in (c : ascii) (pre mid post : str) :
  In c metachars -> In c mid -> ~ meta_free (pre ++ mid ++ post).
Proof.
  intros Hm Hin F. unfold meta_free in F. rewrite Forall_forall in F.
  apply (F c); [|exact Hm]. apply in_or_app. right. apply in_or_app. now left.
Qed.

(** X5.  On a sanitised command the fork-bomb pattern and the two
    redirection patterns ([> /dev/sd?] and [> /proc/]) never match: each needs
    a [;] or a [>], and [sanitize_command] has removed both.  Of the seven
    patterns only the other four can fire on the execute route. *)
Theorem redirect_and_forkbomb_patterns_dead_after_sanitize (x : str) :
  let y := strip (lower (sanitize_command x)) in
  ~ found (nth 1 dangerous_patterns Empty) y /\
  ~ found (nth 3 dangerous_patterns Empty) y /\
  ~ found (nth 6 dangerous_patterns Empty) y.
Proof.
  intros y. pose proof (sanitized_lower_meta_free x) as F. fold y in F.
  repeat split; intros [pre [mid [post [E H]]]]; rewrite E in F; cbn in H.
  - apply cat_inv in H as [s1 [s2 [-> [_ H]]]].
    apply cat_inv in H as [s3 [s4 [-> [_ H]]]].
    apply cat_inv in H as [s5 [s6 [-> [H _]]]].
    apply lit_inv in H as ->.
    apply (meta_free_not_in ";"%char pre _ post) in F; [exact F | cbn; tauto |].
    apply in_or_app. right. apply in_or_app. right. now left.
  - apply cat_inv in H as [s1 [s2 [-> [H _]]]]. apply lit_inv in H as ->.
    apply (meta_free_not_in ">"%char pre _ post) in F; [exact F | cbn; tauto |].
    now left.
  - apply cat_inv in H as [s1 [s2 [-> [H _]]]]. apply lit_inv in H as ->.
    apply (meta_free_not_in ">"%char pre _ post) in F; [exact F | cbn; tauto |].
    now left.
Qed.

(** ** The session executor *)

(** X6.  Every error that leaves [execute_command] is a plain [Exception]:
    the [ValueError] of a rejected command or a missing credential, and every
    paramiko exception, are re-raised by its [except] arms. *)
Theorem executor_errors_are_plain_exceptions (E : env) (host user : str)
    (port : Z) (pw key : option str) (command : str) (w : world) (e : exn) :
  fst (SSHManager.execute_command E host user port pw key command w) = inl e ->
  exn_cls e = Exception /\ isinstance e ValueError = false /\
  isinstance e SSHException = false.
Proof.
  intros H. apply manager_raises_plain_exception in H.
  unfold isinstance. now rewrite H.
Qed.

Lemma executor_errors_are_plain_exceptions_witness :
  exn_cls (Exn Exception (lit "Authentication failed. Check credentials."))
  = Exception.
Proof.
  apply (executor_errors_are_plain_exceptions Sample.env_rejecting
           (lit "10.0.0.5") (lit "root") 22 (Some (lit "hunter2")) None
           (lit "ls -la /home") initial
           (Exn Exception (lit "Authentication failed. Check credentials."))).
  reflexivity.
Defined.

Ltac in_trace :=
  repeat first [ left; reflexivity | right ].

(** X7.  [execute_command] returns normally exactly when the command is
    allowed, a key or a password is supplied, and no call of the SSH library
    raised. *)
Theorem execute_returns_iff_all_succeeded (E : env) (host user : str) (port : Z)
    (pw key : option str) (command : str) (w : world) :
  exists t,
    trace (snd (SSHManager.execute_command E host user port pw key command w))
      = trace w ++ t /\
    ((exists r, fst (SSHManager.execute_command E host user port pw key command w)
                = inr r)
     <-> (is_command_allowed command = true /\
          (SSHManager.supplied key <> None \/ SSHManager.supplied pw <> None) /\
          forall e, ~ In (EvRaised e) t)).
Proof.
  destruct w as [t0 n o]. unfold_run. split_paths.
  all: eexists; split; [give_trace |].
  all: split;
    [ intros [r H];
      first [ discriminate H
            | split; [reflexivity |];
              split; [first [left; discriminate | right; discriminate] |];
              intros e; no_such_event ]
    | intros [A [S R]];
      first [ discriminate A
            | eexists; reflexivity
            | exfalso; destruct S as [S | S]; apply S; reflexivity
            | exfalso; eapply R; cbn; in_trace ] ].
Qed.

(** X8.  No failure of the SSH library is swallowed by [execute_command]:
    when a call raised [e], the function raises the report of [e] -- the fixed
    text for an authentication failure (the library's own message is dropped),
    the prefixed message otherwise. *)
Theorem library_failure_is_reported (E : env) (host user : str) (port : Z)
    (pw key : option str) (command : str) (w : world) :
  exists t,
    trace (snd (SSHManager.execute_command E host user port pw key command w))
      = trace w ++ t /\
    forall e, In (EvRaised e) t ->
      fst (SSHManager.execute_command E host user port pw key command w)
      = inl (reported e).
Proof.
  destruct w as [t0 n o]. unfold_run. split_paths.
  all: eexists; split; [give_trace |].
  all: intros e0 Hin; cbn in Hin;
       repeat (destruct Hin as [Hin | Hin]; [try discriminate Hin |]);
       try contradiction.
  all: injection Hin as <-; unfold reported;
       repeat match goal with H : isinstance _ _ = _ |- _ => rewrite H end;
       reflexivity.
Qed.

(** X9.  [execute_command] sends nothing but the command it was given: every
    [exec_command] of the call carries that command, with the 30 second
    time-out, on the client of this call, the command has passed the policy,
    and a [connect] to the given host was made first. *)
Theorem only_the_given_command_is_executed (E : env) (host user : str)
    (port : Z) (pw key : option str) (command : str) (w : world) :
  exists t,
    trace (snd (SSHManager.execute_command E host user port pw key command w))
      = trace w ++ t /\
    forall c cmd tmo, In (EvExec c cmd tmo) t ->
      is_command_allowed command = true /\ c = next_client w /\
      cmd = command /\ tmo = Some 30%Z /\
      exists a, In (EvConnect c host user port a Settings.SSH_TIMEOUT) t.
Proof.
  destruct w as [t0 n o]. unfold_run. split_paths.
  all: eexists; split; [give_trace |].
  all: intros c cmd tmo Hin; cbn in Hin;
       repeat (destruct Hin as [Hin | Hin]; [try discriminate Hin |]);
       try contradiction.
  all: injection Hin as <- <- <-;
       do 4 (split; [reflexivity |]); eexists; cbn; in_trace.
Qed.

(** X10.  [test_connection] answers [True] only after it connected to the
    given host (10 second time-out) and ran its fixed probe command there,
    with no call having raised. *)
Theorem probe_true_only_after_connect (E : env) (host user : str) (port : Z)
    (pw key : option str) (w : world) :
  exists t,
    trace (snd (SSHManager.test_connection E host user port pw key w))
      = trace w ++ t /\
    (fst (SSHManager.test_connection E host user port pw key w) = inr true ->
     (forall e, ~ In (EvRaised e) t) /\
     In (EvExec (next_client w) SSHManager.probe_command None) t /\
     exists a, In (EvConnect (next_client w) host user port a 10%Z) t).
Proof.
  destruct w as [t0 n o]. unfold_run. split_paths.
  all: eexists; split; [give_trace |].
  all: intros H;
       first [ discriminate H
             | split; [intros e; no_such_event |]; split; [cbn; in_trace |];
               eexists; cbn; in_trace ].
Qed.

(** ** The execute route *)

Ltac impossible_path :=
  match goal with
  | H : exn_cls (Exn _ _) = _ |- _ => cbn in H; discriminate H
  | H : SSHManager.supplied None = Some _ |- _ => discriminate H
  end.

Ltac unfold_route :=
  cbv beta iota zeta delta
    [App.execute_command App.call_world App.log_world App.status_of
     App.HTTP_400_BAD_REQUEST App.HTTP_404_NOT_FOUND
     App.HTTP_500_INTERNAL_SERVER_ERROR route_call isinstance];
  cbn [exn_cls]; unfold_run.

Ltac split_route :=
  repeat (match goal with
          | |- context [match negb ?b with _ => _ end] =>
              destruct b eqn:?; cbn [negb]
          | |- context [match ?x with _ => _ end] =>
              lazymatch x with
              | context [match _ with _ => _ end] => fail
              | _ => destruct x eqn:?
              end
          end; unfold_route; try solve [exfalso; impossible_path]).

Ltac first_refl := split; [reflexivity |].

Ltac scan H :=
  cbn in H;
  repeat (destruct H as [H | H]; [try discriminate H |]);
  try contradiction.

(** X11.  Whatever the execute route runs on a host is the sanitised form of
    the submitted command: it contains none of the stripped metacharacters
    and has passed the policy. *)
Theorem route_executes_only_sanitized (E : env) (u : App.user) (sid : str)
    (found : option App.server) (raw : str) (w : world) :
  exists t,
    trace (snd (App.execute_command E u sid found raw w)) = trace w ++ t /\
    forall c cmd tmo, In (EvExec c cmd tmo) t ->
      cmd = sanitize_command raw /\ is_command_allowed cmd = true /\
      meta_free cmd.
Proof.
  pose proof (remove_meta_free (sub_ws false (strip raw))) as F.
  change (meta_free (sanitize_command raw)) in F.
  destruct w as [t0 n o]. unfold_route.
  generalize dependent (sanitize_command raw). intros cmd0 F.
  destruct found as [srv|]; unfold_route; split_route.
  all: eexists; split; [give_trace |].
  all: intros c cmd tmo Hin; scan Hin.
  all: injection Hin as <- <- <-; repeat split; assumption.
Qed.

(** X12.  The execute route writes an audit record exactly when the executor
    returned normally, and the record carries the caller, the server, the
    sanitised command and the exit code.  A rejected command, a missing
    credential and a failed connection leave no record. *)
Theorem audit_log_iff_executor_returned (E : env) (u : App.user) (sid : str)
    (srv : App.server) (raw : str) (w : world) :
  exists t,
    trace (snd (App.execute_command E u sid (Some srv) raw w)) = trace w ++ t /\
    (forall uid sid' cmd code, In (EvCreateLog uid sid' cmd code) t ->
       uid = App.user_id u /\ sid' = sid /\ cmd = sanitize_command raw /\
       exists out err tm, fst (route_call E srv raw w) = inr (out, err, code, tm)) /\
    (forall out err code tm,
       fst (route_call E srv raw w) = inr (out, err, code, tm) ->
       In (EvCreateLog (App.user_id u) sid (sanitize_command raw) code) t).
Proof.
  destruct w as [t0 n o]. unfold_route.
  generalize (sanitize_command raw). intros cmd0.
  split_route.
  all: eexists; split; [give_trace |].
  all: split;
    [ intros uid sid' cmd code Hin; scan Hin;
      injection Hin as <- <- <- <-; do 3 (split; [reflexivity |]);
      do 3 eexists; reflexivity
    | intros out err code tm H;
      first [ discriminate H
            | injection H as <- <- <- <-; cbn; in_trace ] ].
Qed.

(** X13.  The execute route schedules the failure e-mail only for a command
    that ran, was logged and exited with a nonzero status; and it does so for
    every such command. *)
Theorem notification_iff_nonzero_exit (E : env) (u : App.user) (sid : str)
    (found : option App.server) (raw : str) (w : world) :
  exists t,
    trace (snd (App.execute_command E u sid found raw w)) = trace w ++ t /\
    (forall em cmd, In (EvNotify em cmd) t ->
       em = App.email u /\ cmd = sanitize_command raw /\
       exists body, fst (App.execute_command E u sid found raw w) = App.Ok200 body /\
                    App.r_exit_code body <> 0%Z) /\
    (forall body, fst (App.execute_command E u sid found raw w) = App.Ok200 body ->
       App.r_exit_code body <> 0%Z ->
       In (EvNotify (App.email u) (sanitize_command raw)) t).
Proof.
  destruct w as [t0 n o]. unfold_route.
  generalize (sanitize_command raw). intros cmd0.
  destruct found as [srv|]; unfold_route; split_route.
  all: eexists; split; [give_trace |].
  all: split;
    [ intros em cmd Hin; scan Hin;
      injection Hin as <- <-; do 2 first_refl;
      eexists; first_refl; cbn;
      match goal with H : (_ =? 0)%Z = false |- _ => apply Z.eqb_neq in H; exact H end
    | intros body H; first [ discriminate H | injection H as <- ]; cbn; intros Hc;
      first [ in_trace; fail
            | match goal with H : (_ =? 0)%Z = true |- _ =>
                apply Z.eqb_eq in H; contradiction end
            | cbn; in_trace ] ].
Qed.

(** X14.  The answers of the execute route: 404 without any call when the
    server is unknown; otherwise 200 exactly when the executor returned and
    nothing raised, 400 only when the executor returned and writing the audit
    record raised a [ValueError], and 500 in every other case. *)
Theorem route_status_meaning (E : env) (u : App.user) (sid : str)
    (srv : App.server) (raw : str) (w : world) :
  let out := App.execute_command E u sid (Some srv) raw w in
  App.execute_command E u sid None raw w
    = (App.HTTPException 404 (lit "Server not found"), w) /\
  exists t,
    trace (snd out) = trace w ++ t /\
    (App.status_of (fst out) = 200%Z <->
       (exists r, fst (route_call E srv raw w) = inr r) /\
       forall e, ~ In (EvRaised e) t) /\
    (App.status_of (fst out) = 400%Z ->
       (exists r, fst (route_call E srv raw w) = inr r) /\
       exists e, In (EvRaised e) t /\ exn_cls e = ValueError) /\
    (App.status_of (fst out) = 200%Z \/ App.status_of (fst out) = 400%Z \/
     App.status_of (fst out) = 500%Z).
Proof.
  intros out. subst out. split; [reflexivity |].
  destruct w as [t0 n o]. unfold_route.
  generalize (sanitize_command raw). intros cmd0.
  split_route.
  all: eexists; split; [give_trace |].
  all: split; [split; [intros H | intros [[r H] R]] | split; [intros H |]].
  all: first
    [ discriminate H
    | reflexivity
    | split; [eexists; reflexivity | intros e0; no_such_event]
    | exfalso; eapply R; cbn; in_trace
    | split; [eexists; reflexivity |]; eexists; split; [cbn; in_trace | assumption]
    | left; reflexivity | right; left; reflexivity | right; right; reflexivity ].
Qed.

(* ================================================================== *)
(** * The stores, the tokens and the server routes *)

Import Models Codec Database Auth.

(** ** Base64 over UTF-8 is a codec the store can rely on *)


Lemma sextet_char_inv (s : ascii) :
  is_sextet s ->
  char_sextet (sextet_char s) = Some s /\
  Ascii.eqb (sextet_char s) "=" = false.
Proof.
  intros [b0 [b1 [b2 [b3 [b4 [b5 ->]]]]]].
  destruct b0, b1, b2, b3, b4, b5; split; reflexivity.
Qed.

Lemma sextet1_ok (a : ascii) : is_sextet (sextet1 a).
Proof. destruct a as [a0 a1 a2 a3 a4 a5 a6 a7]. cbn. unfold is_sextet. eauto 7. Qed.

Lemma sextet2_ok (a b : ascii) : is_sextet (sextet2 a b).
Proof.
  destruct a as [a0 a1 a2 a3 a4 a5 a6 a7], b as [b0 b1 b2 b3 b4 b5 b6 b7].
  cbn. unfold is_sextet. eauto 7.
Qed.

Lemma sextet3_ok (b c : ascii) : is_sextet (sextet3 b c).
Proof.
  destruct b as [b0 b1 b2 b3 b4 b5 b6 b7], c as [c0 c1 c2 c3 c4 c5 c6 c7].
  cbn. unfold is_sextet. eauto 7.
Qed.

Lemma sextet4_ok (c : ascii) : is_sextet (sextet4 c).
Proof. destruct c as [c0 c1 c2 c3 c4 c5 c6 c7]. cbn. unfold is_sextet. eauto 7. Qed.

Lemma byte1_sextets (a b : ascii) : byte1 (sextet1 a) (sextet2 a b) = a.
Proof.
  destruct a as [a0 a1 a2 a3 a4 a5 a6 a7], b as [b0 b1 b2 b3 b4 b5 b6 b7].
  reflexivity.
Qed.

Lemma byte2_sextets (a b c : ascii) : byte2 (sextet2 a b) (sextet3 b c) = b.
Proof.
  destruct a as [a0 a1 a2 a3 a4 a5 a6 a7], b as [b0 b1 b2 b3 b4 b5 b6 b7],
    c as [c0 c1 c2 c3 c4 c5 c6 c7].
  reflexivity.
Qed.

Lemma byte3_sextets (b c : ascii) : byte3 (sextet3 b c) (sextet4 c) = c.
Proof.
  destruct b as [b0 b1 b2 b3 b4 b5 b6 b7], c as [c0 c1 c2 c3 c4 c5 c6 c7].
  reflexivity.
Qed.

Ltac sextets :=
  repeat match goal with
         | |- context [char_sextet (sextet_char ?s)] =>
             rewrite (proj1 (sextet_char_inv s
                       ltac:(first [apply sextet1_ok | apply sextet2_ok
                                   | apply sextet3_ok | apply sextet4_ok])))
         | |- context [Ascii.eqb (sextet_char ?s) "="] =>
             rewrite (proj2 (sextet_char_inv s
                       ltac:(first [apply sextet1_ok | apply sextet2_ok
                                   | apply sextet3_ok | apply sextet4_ok])))
         end.

Lemma b64decode_encode (bs : list ascii) :
  b64decode (b64encode bs) = Some bs.
Proof.
  assert (G : b64decode (b64encode bs) = Some bs /\
              (forall a, b64decode (b64encode (a :: bs)) = Some (a :: bs)) /\
              (forall a b, b64decode (b64encode (a :: b :: bs))
                           = Some (a :: b :: bs))).
  { induction bs as [|c bs [IH0 [IH1 IH2]]].
    - split; [reflexivity |]. split.
      + intros a. cbn [b64encode b64decode]. sextets.
        rewrite !Ascii.eqb_refl. now rewrite byte1_sextets.
      + intros a b. cbn [b64encode b64decode]. sextets.
        rewrite !Ascii.eqb_refl. now rewrite byte1_sextets, byte2_sextets.
    - split; [apply IH1 |]. split; [intros a; apply IH2 |].
      intros a b. cbn [b64encode b64decode]. sextets.
      cbn [b64encode] in IH0. rewrite IH0.
      now rewrite byte1_sextets, byte2_sextets, byte3_sextets. }
  exact (proj1 G).
Qed.

Lemma utf8_decode_encode (s : str) : utf8_decode (utf8_encode s) = Some s.
Proof.
  induction s as [|c s IH]; [reflexivity |].
  destruct c as [b0 b1 b2 b3 b4 b5 b6 b7].
  unfold utf8_encode in *. cbn [flat_map utf8_char].
  destruct b7;
    [destruct b6, b0, b1, b2, b3, b4, b5 | destruct b1, b2, b3, b4, b5, b6];
    cbn; rewrite IH; reflexivity.
Qed.

Lemma b64encode_nonempty (bs : list ascii) : bs <> [] -> b64encode bs <> [].
Proof.
  destruct bs as [|a [|b [|c t]]]; [congruence | | |]; intros _; discriminate.
Qed.

Lemma utf8_encode_nonempty (s : str) : s <> [] -> utf8_encode s <> [].
Proof.
  destruct s as [|c s]; [congruence |]. intros _.
  destruct c as [b0 b1 b2 b3 b4 b5 b6 b7]. destruct b7; discriminate.
Qed.

Lemma base64_utf8_ok : codec_ok base64_utf8.
Proof.
  intros p. split.
  - cbn. now rewrite b64decode_encode, utf8_decode_encode.
  - intros H. cbn. now apply b64encode_nonempty, utf8_encode_nonempty.
Qed.

(** ** The server store *)

Lemma str_eqb_eq (a b : str) : str_eqb a b = true <-> a = b.
Proof.
  unfold str_eqb. rewrite andb_true_iff, Nat.eqb_eq, startswith_iff. split.
  - intros [L [rest E]]. subst b. rewrite length_app in L.
    destruct rest; [now rewrite app_nil_r | simpl in L; lia].
  - intros ->. split; [reflexivity | exists []; now rewrite app_nil_r].
Qed.

Lemma str_eqb_refl (a : str) : str_eqb a a = true.
Proof. now apply str_eqb_eq. Qed.

Lemma is_server_iff (sid uid : str) (s : server_row) :
  is_server sid uid s = true <-> s_id s = sid /\ s_user_id s = uid.
Proof. unfold is_server. now rewrite andb_true_iff, !str_eqb_eq. Qed.

Lemma find_snoc {A} (p : A -> bool) (l : list A) (x : A) :
  find p (l ++ [x])
  = match find p l with
    | Some y => Some y
    | None => if p x then Some x else None
    end.
Proof.
  induction l as [|a l IH]; simpl; [reflexivity |].
  destruct (p a); [reflexivity | exact IH].
Qed.

Lemma set_password_same (data : ServerCreate) :
  set_password data (password data) = data.
Proof. now destruct data. Qed.

Lemma set_password_twice (data : ServerCreate) (p q : option str) :
  set_password (set_password data p) q = set_password data q.
Proof. reflexivity. Qed.

Lemma supplied_some (o : option str) (p : str) :
  SSHManager.supplied o = Some p -> o = Some p /\ p <> [].
Proof.
  destruct o as [[|c t]|]; simpl; intros H; try discriminate.
  injection H as <-. split; [reflexivity | discriminate].
Qed.

Lemma supplied_nonempty (p : str) : p <> [] -> SSHManager.supplied (Some p) = Some p.
Proof. destruct p; [congruence | reflexivity]. Qed.

(** Decoding undoes encoding on a row, whatever its password field holds. *)
Lemma decode_encode (C : codec) (data : ServerCreate)
    (sid uid t1 t2 : str) :
  codec_ok C ->
  decode_password C (ServerRow (encode_password C data) sid uid t1 t2)
  = inr (ServerRow data sid uid t1 t2).
Proof.
  intros OK. unfold encode_password, decode_password.
  destruct (SSHManager.supplied (password data)) as [p|] eqn:S; cbn [s_data].
  - apply supplied_some in S as [P N].
    destruct (OK p) as [R NE]. cbn [password set_password].
    rewrite (supplied_nonempty _ (NE N)), R.
    destruct data. cbn in P |- *. now rewrite P.
  - now rewrite S.
Qed.

(** X15.  Round trip of the server store: a server stored by
    [create_server] under an id the user has not used before is returned by
    [get_server] to that user exactly as submitted -- the password, Base64 in
    the file, comes back in the clear, and a missing or empty password is left
    alone -- and every other look-up answers as before. *)
Theorem created_server_is_fetched (C : codec) (uuid now1 now2 : str)
    (d : db) (user_id : str) (data : ServerCreate) :
  codec_ok C ->
  find (is_server uuid user_id) (_read_file (servers_file d)) = None ->
  let d' := fst (create_server C uuid now1 now2 d user_id data) in
  get_server C d' uuid user_id
  = inr (Some (ServerRow data uuid user_id now1 now2)) /\
  forall sid uid, (sid, uid) <> (uuid, user_id) ->
    get_server C d' sid uid = get_server C d sid uid.
Proof.
  intros OK Fresh d'. subst d'. unfold get_server, create_server.
  cbn [fst servers_file _read_file _write_file]. split.
  - rewrite find_snoc, Fresh. unfold is_server at 1. cbn [s_id s_user_id].
    rewrite !str_eqb_refl. cbn. now rewrite decode_encode.
  - intros sid uid Ne. rewrite find_snoc.
    destruct (find (is_server sid uid) (_read_file (servers_file d)));
      [reflexivity |].
    destruct (is_server sid uid _) eqn:I; [|reflexivity].
    apply is_server_iff in I as [I1 I2]. cbn in I1, I2. congruence.
Qed.

Lemma created_server_is_fetched_witness :
  get_server base64_utf8
    (fst (create_server base64_utf8 (lit "id-1") (lit "t1") (lit "t2")
            Fixture.empty_db (lit "u1") Fixture.web))
    (lit "id-1") (lit "u1")
  = inr (Some (ServerRow Fixture.web (lit "id-1") (lit "u1") (lit "t1")
                         (lit "t2"))).
Proof.
  apply (created_server_is_fetched base64_utf8 (lit "id-1") (lit "t1")
           (lit "t2") Fixture.empty_db (lit "u1") Fixture.web).
  - exact base64_utf8_ok.
  - reflexivity.
Defined.


Lemma decode_password_keeps (C : codec) (row row' : server_row) :
  decode_password C row = inr row' ->
  s_id row' = s_id row /\ s_user_id row' = s_user_id row.
Proof.
  unfold decode_password.
  destruct (SSHManager.supplied _); [destruct (unb64 C _) |]; intros H;
    try discriminate; injection H as <-; now split.
Qed.

Lemma decode_all_owned (C : codec) (uid : str) (rows out : list server_row) :
  Forall (fun s => s_user_id s = uid) rows ->
  decode_all C rows = inr out ->
  Forall (fun s => s_user_id s = uid) out /\ List.length out = List.length rows.
Proof.
  intros H. revert out. induction H as [|r rows Hr _ IH]; intros out; simpl.
  - intros E. injection E as <-. now split.
  - destruct (decode_password C r) as [e|r'] eqn:D; [discriminate |].
    destruct (decode_all C rows) as [e|t']; [discriminate |].
    intros E. injection E as <-. destruct (IH t' eq_refl) as [F L].
    apply decode_password_keeps in D as [_ D]. split.
    + constructor; [congruence | exact F].
    + simpl. now rewrite L.
Qed.

Lemma decode_all_rows (C : codec) (rows out : list server_row) :
  decode_all C rows = inr out ->
  Forall2 (fun stored row => decode_password C stored = inr row) rows out.
Proof.
  revert out. induction rows as [|r rows IH]; intros out; simpl.
  - intros E. injection E as <-. constructor.
  - destruct (decode_password C r) as [e|r'] eqn:D; [discriminate |].
    destruct (decode_all C rows) as [e|t']; [discriminate |].
    intros E. injection E as <-. constructor; [exact D | now apply IH].
Qed.

Lemma decode_all_complete (C : codec) (rows out : list server_row) :
  Forall2 (fun stored row => decode_password C stored = inr row) rows out ->
  decode_all C rows = inr out.
Proof.
  induction 1 as [|r r' rows out D _ IH]; [reflexivity |].
  simpl. now rewrite D, IH.
Qed.

(** X16.  No look-up hands out another user's server, and none invents,
    repeats or withholds one.  What [get_server] returns has the id and the
    owner asked for and is the decoded first stored row with that id and
    owner; it returns that row whenever there is one that decodes, and [None]
    exactly when the user owns no server of that id.  [get_user_servers]
    returns the stored servers of the user, each decoded, in file order, one
    row for each and no other, whenever they all decode. *)
Theorem lookups_return_own_servers (C : codec) (d : db) (sid uid : str) :
  (forall s, get_server C d sid uid = inr (Some s) ->
     s_id s = sid /\ s_user_id s = uid /\
     exists stored,
       find (is_server sid uid) (_read_file (servers_file d)) = Some stored /\
       In stored (_read_file (servers_file d)) /\
       decode_password C stored = inr s) /\
  (forall rows, get_user_servers C d uid = inr rows ->
     Forall (fun s => s_user_id s = uid) rows /\
     List.length rows
     = List.length (filter (owned_by uid) (_read_file (servers_file d))) /\
     Forall2 (fun stored row => decode_password C stored = inr row)
             (filter (owned_by uid) (_read_file (servers_file d))) rows) /\
  (forall stored s,
     find (is_server sid uid) (_read_file (servers_file d)) = Some stored ->
     decode_password C stored = inr s ->
     get_server C d sid uid = inr (Some s)) /\
  (get_server C d sid uid = inr None <->
   forall row, In row (_read_file (servers_file d)) ->
     s_id row = sid -> s_user_id row <> uid) /\
  (forall rows,
     Forall2 (fun stored row => decode_password C stored = inr row)
             (filter (owned_by uid) (_read_file (servers_file d))) rows ->
     get_user_servers C d uid = inr rows).
Proof.
  split; [| split; [| split; [| split]]].
  - intros s. unfold get_server.
    destruct (find _ _) as [row|] eqn:F; [|discriminate].
    pose proof (find_some _ _ F) as [Hin I].
    apply is_server_iff in I as [I1 I2].
    destruct (decode_password C row) as [e|row'] eqn:D; [discriminate |].
    intros E. injection E as <-.
    pose proof (decode_password_keeps C _ _ D) as [D1 D2].
    split; [congruence |]. split; [congruence |]. now exists row.
  - intros rows H. unfold get_user_servers in H.
    pose proof (decode_all_rows C _ _ H) as R.
    assert (Own : Forall (fun s => s_user_id s = uid)
                    (filter (owned_by uid) (_read_file (servers_file d)))).
    { apply Forall_forall. intros s Hin. apply filter_In in Hin as [_ O].
      now apply str_eqb_eq in O. }
    destruct (decode_all_owned C uid _ rows Own H) as [O L].
    now repeat split.
  - intros stored s F D. unfold get_server. now rewrite F, D.
  - unfold get_server.
    destruct (find _ _) as [row|] eqn:F.
    + split.
      * destruct (decode_password C row); discriminate.
      * intros H. exfalso. apply find_some in F as [Hin I].
        apply is_server_iff in I as [I1 I2]. exact (H row Hin I1 I2).
    + split; [|reflexivity]. intros _ row Hin I1 I2.
      pose proof (find_none _ _ F row Hin) as N.
      assert (T : is_server sid uid row = true)
        by (apply is_server_iff; now split).
      congruence.
  - intros rows H. unfold get_user_servers. now apply decode_all_complete.
Qed.

Lemma filter_length_all {A} (p : A -> bool) (l : list A) :
  List.length (filter p l) = List.length l <-> forall x, In x l -> p x = true.
Proof.
  induction l as [|a l IH]; simpl; [intuition |].
  pose proof (filter_length_le p l) as Le.
  destruct (p a) eqn:E; simpl.
  - split.
    + intros H x [<- | Hin]; [exact E |]. apply IH; [lia | exact Hin].
    + intros H. f_equal. apply IH. intros x Hin. apply H. now right.
  - split; [lia |]. intros H. specialize (H a (or_introl eq_refl)). congruence.
Qed.

Lemma find_none_iff {A} (p : A -> bool) (l : list A) :
  find p l = None <-> forall x, In x l -> p x = false.
Proof.
  split; [apply find_none |].
  induction l as [|a l IH]; simpl; [reflexivity |]. intros H.
  rewrite (H a (or_introl eq_refl)). apply IH. intros x Hin. apply H. now right.
Qed.

Lemma find_filter_disjoint {A} (q p : A -> bool) (l : list A) :
  (forall x, q x = true -> p x = true) ->
  find q (filter p l) = find q l.
Proof.
  intros H. induction l as [|a l IH]; simpl; [reflexivity |].
  destruct (p a) eqn:P; simpl.
  - now rewrite IH.
  - destruct (q a) eqn:Q; [|exact IH]. rewrite (H a Q) in P. discriminate.
Qed.

Lemma other_server (sid uid sid' uid' : str) (s : server_row) :
  (sid', uid') <> (sid, uid) ->
  is_server sid' uid' s = true -> is_server sid uid s = false.
Proof.
  intros Ne I. apply is_server_iff in I as [I1 I2].
  destruct (is_server sid uid s) eqn:J; [|reflexivity].
  apply is_server_iff in J as [J1 J2]. congruence.
Qed.

Lemma delete_clears (sid uid : str) (servers : list server_row) :
  find (is_server sid uid)
       (filter (fun s => negb (is_server sid uid s)) servers) = None.
Proof.
  apply find_none_iff. intros x Hin. apply filter_In in Hin as [_ K].
  now destruct (is_server sid uid x).
Qed.

Lemma delete_flag (sid uid : str) (servers : list server_row) :
  negb (List.length (filter (fun s => negb (is_server sid uid s)) servers)
        =? List.length servers) = true
  <-> find (is_server sid uid) servers <> None.
Proof.
  rewrite negb_true_iff, Nat.eqb_neq. split.
  - intros L N. apply L. apply filter_length_all. intros x Hin.
    now rewrite (proj1 (find_none_iff _ _) N x Hin).
  - intros F L. apply F. apply find_none_iff. intros x Hin.
    pose proof (proj1 (filter_length_all _ servers) L x Hin) as K.
    cbv beta in K. now destruct (is_server sid uid x).
Qed.

(** X17.  [delete_server] answers [True] exactly when the user owns a server
    of that id; afterwards the owner's look-up of it finds nothing, every
    other look-up answers as before, and the user and log files are
    untouched.  When it answers [False] nothing was written. *)
Theorem delete_server_removes_only_that_server (C : codec) (d : db)
    (sid uid : str) :
  let d' := fst (delete_server d sid uid) in
  let deleted := snd (delete_server d sid uid) in
  (deleted = true <->
   find (is_server sid uid) (_read_file (servers_file d)) <> None) /\
  (deleted = false -> d' = d) /\
  get_server C d' sid uid = inr None /\
  (forall sid' uid', (sid', uid') <> (sid, uid) ->
     get_server C d' sid' uid' = get_server C d sid' uid') /\
  users_file d' = users_file d /\ logs_file d' = logs_file d.
Proof.
  intros d' deleted. subst d' deleted. unfold delete_server.
  set (servers := _read_file (servers_file d)).
  pose proof (delete_flag sid uid servers) as Flag.
  pose proof (delete_clears sid uid servers) as Gone.
  destruct (negb (_ =? _)) eqn:L; cbn [fst snd].
  - split; [split; [intros _; now apply Flag | reflexivity] |].
    split; [discriminate |].
    unfold get_server. cbn [servers_file _read_file _write_file].
    fold servers. rewrite Gone.
    split; [reflexivity |]. split; [|split; reflexivity].
    intros sid' uid' Ne.
    rewrite (find_filter_disjoint (is_server sid' uid')); [reflexivity |].
    intros x Q. now rewrite (other_server sid uid sid' uid' x Ne Q).
  - assert (N : find (is_server sid uid) servers = None).
    { destruct (find (is_server sid uid) servers) eqn:F; [|reflexivity].
      assert (T : false = true) by (apply Flag; discriminate). discriminate. }
    split; [split; [discriminate | intros H; now rewrite N in H] |].
    split; [reflexivity |]. unfold get_server. fold servers. rewrite N.
    repeat split; reflexivity.
Qed.

Lemma replace_first_spec {A} (p : A -> bool) (f : A -> A) (l : list A) :
  match replace_first p f l, find p l with
  | Some l', Some old =>
      (p (f old) = true -> find p l' = Some (f old)) /\
      (forall q : A -> bool,
         (forall x, q x = true -> p x = false) ->
         (forall x, q (f x) = true -> p x = false) ->
         find q l' = find q l) /\
      List.length l' = List.length l
  | None, None => True
  | _, _ => False
  end.
Proof.
  induction l as [|a l IH]; simpl; [exact I |].
  destruct (p a) eqn:P.
  - split; [|split].
    + intros H. simpl. now rewrite H.
    + intros q Hq Hf. simpl.
      destruct (q (f a)) eqn:Q1; [apply Hf in Q1; congruence |].
      destruct (q a) eqn:Q2; [apply Hq in Q2; congruence | reflexivity].
    + reflexivity.
  - destruct (replace_first p f l) as [l'|], (find p l) as [old|];
      simpl; try exact IH.
    destruct IH as [IH1 [IH2 IH3]]. split; [|split].
    + intros H. rewrite P. now apply IH1.
    + intros q Hq Hf. destruct (q a); [reflexivity | now apply IH2].
    + now rewrite IH3.
Qed.

(** X18.  [update_server] answers [True] exactly when the user owns a server
    of that id.  It then replaces the seven submitted fields of the first such
    row, keeps its id, owner and creation time, sets the update time, and
    changes no other look-up; the owner then reads back the submitted data with
    the password in the clear.  When it answers [False] nothing was written. *)
Theorem update_server_replaces_first_match (C : codec) (now : str) (d : db)
    (sid uid : str) (data : ServerCreate) :
  codec_ok C ->
  let d' := fst (update_server C now d sid uid data) in
  let updated := snd (update_server C now d sid uid data) in
  (updated = true <->
   find (is_server sid uid) (_read_file (servers_file d)) <> None) /\
  (updated = false -> d' = d) /\
  (forall old,
     find (is_server sid uid) (_read_file (servers_file d)) = Some old ->
     get_server C d' sid uid
     = inr (Some (ServerRow data sid uid (s_created_at old) now))) /\
  (forall sid' uid', (sid', uid') <> (sid, uid) ->
     get_server C d' sid' uid' = get_server C d sid' uid') /\
  List.length (_read_file (servers_file d'))
  = List.length (_read_file (servers_file d)).
Proof.
  intros OK d' updated. subst d' updated. unfold update_server.
  set (servers := _read_file (servers_file d)).
  set (f := fun s => ServerRow (encode_password C data) (s_id s)
                               (s_user_id s) (s_created_at s) now).
  pose proof (replace_first_spec (is_server sid uid) f servers) as R.
  destruct (replace_first (is_server sid uid) f servers) as [l'|],
           (find (is_server sid uid) servers) as [old|] eqn:F;
    try contradiction; cbn [fst snd servers_file _read_file _write_file].
  - destruct R as [R1 [R2 R3]].
    assert (Old : s_id old = sid /\ s_user_id old = uid).
    { apply find_some in F as [_ I]. now apply is_server_iff in I. }
    destruct Old as [O1 O2].
    split; [split; [discriminate | reflexivity] |].
    split; [discriminate |]. split; [|split; [|exact R3]].
    + intros old' E. injection E as <-. unfold get_server.
      cbn [servers_file _read_file _write_file].
      rewrite R1 by (apply is_server_iff; cbn; now split).
      unfold f. rewrite (decode_encode C data _ _ _ _ OK). now rewrite O1, O2.
    + intros sid' uid' Ne. unfold get_server.
      cbn [servers_file _read_file _write_file]. fold servers.
      rewrite (R2 (is_server sid' uid')); [reflexivity | |].
      * intros x Q. exact (other_server sid uid sid' uid' x Ne Q).
      * intros x Q. apply (other_server sid uid sid' uid' x Ne).
        apply is_server_iff in Q. apply is_server_iff. exact Q.
  - split; [split; [discriminate | congruence] |].
    split; [reflexivity |]. split; [discriminate |].
    split; reflexivity.
Qed.

Lemma update_server_replaces_first_match_witness :
  get_server base64_utf8
    (fst (update_server base64_utf8 (lit "t3") Fixture.one_server
            (lit "id-1") (lit "u1") Fixture.keyed))
    (lit "id-1") (lit "u1")
  = inr (Some (ServerRow Fixture.keyed (lit "id-1") (lit "u1") (lit "t1")
                         (lit "t3"))).
Proof.
  destruct (update_server_replaces_first_match base64_utf8 (lit "t3")
              Fixture.one_server (lit "id-1") (lit "u1") Fixture.keyed
              base64_utf8_ok) as [_ [_ [H _]]].
  exact (H _ eq_refl).
Defined.


(** ** The log store *)


Lemma str_ltb_asym (a b : str) : str_ltb a b = true -> str_ltb b a = false.
Proof.
  revert b. induction a as [|x a IH]; intros [|y b]; simpl; try reflexivity;
    try discriminate.
  destruct (N_of_ascii x <? N_of_ascii y)%N eqn:L1,
           (N_of_ascii y <? N_of_ascii x)%N eqn:L2;
    try reflexivity; try discriminate.
  - apply N.ltb_lt in L1, L2. lia.
  - apply IH.
Qed.

Section Sorting.
Context {A : Type} (key : A -> str).


Lemma insert_desc_in (x y : A) (l : list A) :
  In y (insert_desc key x l) <-> y = x \/ In y l.
Proof.
  induction l as [|a l IH]; simpl; [intuition |].
  destruct (str_ltb (key x) (key a)); simpl; rewrite ?IH; intuition.
Qed.

Lemma insert_desc_length (x : A) (l : list A) :
  List.length (insert_desc key x l) = S (List.length l).
Proof.
  induction l as [|a l IH]; simpl; [reflexivity |].
  destruct (str_ltb (key x) (key a)); simpl; now rewrite ?IH.
Qed.

Lemma insert_desc_sorted (x : A) (l : list A) :
  Sorted (desc_by key) l -> Sorted (desc_by key) (insert_desc key x l).
Proof.
  induction 1 as [|a l S IH H]; simpl; [repeat constructor |].
  destruct (str_ltb (key x) (key a)) eqn:L.
  - constructor; [exact IH |].
    destruct l as [|b l]; simpl.
    + constructor. now apply str_ltb_asym.
    + destruct (str_ltb (key x) (key b)).
      * constructor. now inversion H.
      * constructor. now apply str_ltb_asym.
  - constructor; [now constructor | now constructor].
Qed.

Lemma sorted_desc_in (y : A) (l : list A) :
  In y (sorted_desc key l) <-> In y l.
Proof.
  induction l as [|a l IH]; simpl; [reflexivity |].
  rewrite insert_desc_in, IH. intuition.
Qed.

Lemma sorted_desc_length (l : list A) :
  List.length (sorted_desc key l) = List.length l.
Proof.
  induction l as [|a l IH]; simpl; [reflexivity |].
  now rewrite insert_desc_length, IH.
Qed.

Lemma sorted_desc_sorted (l : list A) : Sorted (desc_by key) (sorted_desc key l).
Proof.
  induction l as [|a l IH]; simpl; [constructor |].
  now apply insert_desc_sorted.
Qed.

Lemma sorted_firstn (n : nat) (l : list A) :
  Sorted (desc_by key) l -> Sorted (desc_by key) (firstn n l).
Proof.
  intros S. revert n. induction S as [|a l S IH H]; intros [|n]; simpl;
    try constructor.
  - apply IH.
  - destruct H as [|b l H]; destruct n; constructor. exact H.
Qed.

Lemma in_firstn (n : nat) (l : list A) (x : A) :
  In x (firstn n l) -> In x l.
Proof.
  intros H. rewrite <- (firstn_skipn n l). apply in_or_app. now left.
Qed.

(** The newest row, appended last, sorts to the front. *)
Lemma sorted_desc_snoc_newest (x : A) (l : list A) :
  (forall y, In y l -> str_ltb (key y) (key x) = true) ->
  sorted_desc key (l ++ [x]) = x :: sorted_desc key l.
Proof.
  induction l as [|a l IH]; intros H; simpl; [reflexivity |].
  rewrite IH by (intros y Hy; apply H; now right).
  simpl. now rewrite (H a (or_introl eq_refl)).
Qed.

End Sorting.

Lemma str_ltb_neg_trans (a b c : str) :
  str_ltb a b = false -> str_ltb b c = false -> str_ltb a c = false.
Proof.
  revert b c. induction a as [|x a IH]; intros [|y b] [|z c]; simpl;
    try reflexivity; try discriminate.
  destruct (N.ltb_spec (N_of_ascii x) (N_of_ascii y)); [discriminate |].
  destruct (N.ltb_spec (N_of_ascii y) (N_of_ascii x));
    destruct (N.ltb_spec (N_of_ascii y) (N_of_ascii z)); try discriminate;
    destruct (N.ltb_spec (N_of_ascii z) (N_of_ascii y));
    destruct (N.ltb_spec (N_of_ascii x) (N_of_ascii z));
    destruct (N.ltb_spec (N_of_ascii z) (N_of_ascii x));
    try reflexivity; try lia; intros; try discriminate.
  now apply (IH b c).
Qed.

Lemma insert_desc_perm {A} (key : A -> str) (x : A) (l : list A) :
  Permutation (insert_desc key x l) (x :: l).
Proof.
  induction l as [|a l IH]; simpl; [reflexivity |].
  destruct (str_ltb (key x) (key a)); [|reflexivity].
  rewrite IH. apply perm_swap.
Qed.

Lemma sorted_desc_perm {A} (key : A -> str) (l : list A) :
  Permutation (sorted_desc key l) l.
Proof.
  induction l as [|a l IH]; simpl; [reflexivity |].
  rewrite insert_desc_perm. now constructor.
Qed.

Lemma strongly_sorted_app {A} (R : A -> A -> Prop) (l1 l2 : list A) :
  StronglySorted R (l1 ++ l2) ->
  forall a b, In a l1 -> In b l2 -> R a b.
Proof.
  induction l1 as [|x l1 IH]; simpl; intros S a b Ha Hb; [contradiction |].
  inversion S as [|? ? S' F]; subst. destruct Ha as [<- | Ha].
  - rewrite Forall_forall in F. apply F. apply in_or_app. now right.
  - now apply IH.
Qed.

(** X19.  [get_user_logs] returns only stored records of the user, newest
    time stamp first.  With a limit of zero or more it returns at most that
    many; a negative limit, which the route does not exclude, instead drops
    that many records.  What is left out is the old end: the listing followed
    by the records left out is the user's records (each once) in descending
    order, so no record left out is newer than one that is listed. *)
Theorem user_logs_are_own_newest_first (d : db) (uid : str) (limit : Z) :
  let mine := filter (of_user uid) (_read_file (logs_file d)) in
  let out := get_user_logs d uid limit in
  Forall (fun log => In log (_read_file (logs_file d)) /\
                     ld_user_id (l_data log) = uid) out /\
  Sorted (desc_by l_timestamp) out /\
  List.length out
  = (if (0 <=? limit)%Z then Nat.min (Z.to_nat limit) (List.length mine)
     else List.length mine - Z.to_nat (- limit)) /\
  exists dropped,
    Permutation (out ++ dropped) mine /\
    Sorted (desc_by l_timestamp) (out ++ dropped) /\
    forall kept old, In kept out -> In old dropped ->
      str_ltb (l_timestamp kept) (l_timestamp old) = false.
Proof.
  intros mine out. subst out. unfold get_user_logs. fold (of_user uid).
  fold mine. unfold slice_to. rewrite sorted_desc_length.
  set (k := if (0 <=? limit)%Z then Z.to_nat limit
            else List.length mine - Z.to_nat (- limit)).
  assert (E : (if (0 <=? limit)%Z
               then firstn (Z.to_nat limit) (sorted_desc l_timestamp mine)
               else firstn (List.length mine - Z.to_nat (- limit))
                           (sorted_desc l_timestamp mine))
              = firstn k (sorted_desc l_timestamp mine))
    by (unfold k; now destruct (0 <=? limit)%Z).
  rewrite E. split; [|split; [|split]].
  - apply Forall_forall. intros log Hin. apply in_firstn in Hin.
    apply sorted_desc_in in Hin. apply filter_In in Hin as [Hin O].
    split; [exact Hin | now apply str_eqb_eq in O].
  - apply sorted_firstn, sorted_desc_sorted.
  - rewrite length_firstn, sorted_desc_length. unfold k.
    destruct (0 <=? limit)%Z; lia.
  - exists (skipn k (sorted_desc l_timestamp mine)).
    rewrite firstn_skipn. split; [apply sorted_desc_perm |].
    split; [apply sorted_desc_sorted |].
    intros kept old Hk Ho.
    pose proof (sorted_desc_sorted l_timestamp mine) as S.
    apply Sorted_StronglySorted in S.
    + rewrite <- (firstn_skipn k (sorted_desc l_timestamp mine)) in S.
      exact (strongly_sorted_app _ _ _ S kept old Hk Ho).
    + intros a b c. unfold desc_by. apply str_ltb_neg_trans.
Qed.

(** X20.  A record written by [create_log] with a time stamp later than all
    the user's earlier records heads the user's listing, followed by what the
    listing was before (one entry shorter). *)
Theorem new_log_is_listed_first (uuid now : str) (d : db) (data : log_dict)
    (limit : Z) :
  (0 < limit)%Z ->
  (forall log, In log (_read_file (logs_file d)) ->
     ld_user_id (l_data log) = ld_user_id data ->
     str_ltb (l_timestamp log) now = true) ->
  get_user_logs (fst (create_log uuid now d data)) (ld_user_id data) limit
  = LogRow data uuid now :: get_user_logs d (ld_user_id data) (limit - 1).
Proof.
  intros L Newer. unfold get_user_logs, create_log.
  cbn [fst logs_file _read_file _write_file].
  rewrite filter_app. cbn [filter l_data]. rewrite str_eqb_refl.
  rewrite sorted_desc_snoc_newest.
  - unfold slice_to.
    destruct (0 <=? limit)%Z eqn:A; [|lia].
    destruct (0 <=? limit - 1)%Z eqn:B; [|lia].
    replace (Z.to_nat limit) with (S (Z.to_nat (limit - 1))) by lia.
    reflexivity.
  - intros y Hy. apply filter_In in Hy as [Hin O]. apply str_eqb_eq in O.
    cbn. now apply Newer.
Qed.

Lemma new_log_is_listed_first_witness :
  get_user_logs (fst (create_log (lit "log-1") (lit "2026-01-01T10:00:00")
                        Fixture.logged Fixture.a_log))
                (lit "u1") 50
  = [LogRow Fixture.a_log (lit "log-1") (lit "2026-01-01T10:00:00");
     LogRow Fixture.a_log (lit "log-a") (lit "2026-01-01T09:00:00")].
Proof.
  apply (new_log_is_listed_first (lit "log-1") (lit "2026-01-01T10:00:00")
           Fixture.logged Fixture.a_log 50).
  - reflexivity.
  - intros log [<- | [<- | []]] Own.
    + reflexivity.
    + discriminate Own.
Defined.


(** ** Users and tokens *)

Lemma get_user_by_email_none (d : db) (email : str) :
  get_user_by_email d email = None <-> ~ In email (emails d).
Proof.
  unfold get_user_by_email, emails. rewrite find_none_iff, in_map_iff. split.
  - intros H [u [E Hin]]. specialize (H u Hin). rewrite <- E in H.
    now rewrite str_eqb_refl in H.
  - intros H u Hin. destruct (str_eqb _ email) eqn:E; [|reflexivity].
    apply str_eqb_eq in E. exfalso. apply H. now exists u.
Qed.

Lemma emails_after_create (uuid now : str) (d : db) (ud : user_dict) :
  emails (fst (create_user uuid now d ud)) = emails d ++ [ud_email ud].
Proof.
  unfold emails, create_user. cbn [fst users_file _read_file _write_file].
  now rewrite map_app.
Qed.

Lemma nodup_snoc (l : list str) (a : str) :
  NoDup l -> (NoDup (l ++ [a]) <-> ~ In a l).
Proof.
  intros Hl. split.
  - intros H Hin. apply NoDup_remove_2 with (l' := []) in H.
    apply H. now rewrite app_nil_r.
  - intros H. apply NoDup_app; [exact Hl | repeat constructor; intros [] |].
    intros x Hx [<- | []]. contradiction.
Qed.

(** X21.  Registration and the uniqueness of e-mail addresses.  An address
    that is in the user file when [register_new_user] looks it up is refused
    with HTTP 400 and nothing is written.  Otherwise the registration
    succeeds and appends the address to the user file as it is when
    [create_user] reads it; the file, if it was free of duplicates then, stays
    so exactly when no other request has stored the same address since the
    look-up.  With no request in between, a file without duplicate addresses
    stays without. *)
Theorem register_keeps_emails_unique_unless_raced (K : crypto)
    (uuid now : str) (utcnow : Z) (between : db -> db) (d : db)
    (user_data : UserCreate) :
  let r := register_new_user_among K uuid now utcnow between d user_data in
  (In (email user_data) (emails d) ->
   r = (HTTPException 400 (lit "Email already registered"), d)) /\
  (~ In (email user_data) (emails d) ->
   (exists token, fst r = Return token) /\
   emails (snd r) = emails (between d) ++ [email user_data] /\
   (NoDup (emails (between d)) ->
    (NoDup (emails (snd r))
     <-> ~ In (email user_data) (emails (between d))))) /\
  (NoDup (emails d) ->
   NoDup (emails (snd (register_new_user K uuid now utcnow d user_data)))).
Proof.
  intros r. subst r. unfold register_new_user, register_new_user_among.
  destruct (get_user_by_email d (email user_data)) as [u|] eqn:G.
  - assert (In (email user_data) (emails d)) as Hin.
    { destruct (in_dec (list_eq_dec ascii_dec) (email user_data) (emails d))
        as [H | H]; [exact H |].
      apply get_user_by_email_none in H. congruence. }
    split; [reflexivity |]. split; [contradiction |]. intros N. exact N.
  - apply get_user_by_email_none in G. split; [contradiction |].
    cbv zeta.
    set (ud := UserDict (email user_data)
                 (get_password_hash K (uc_password user_data))
                 (first_name user_data) (last_name user_data)
                 (age user_data) (phone user_data)).
    pose proof (emails_after_create uuid now (between d) ud) as Gr.
    pose proof (emails_after_create uuid now d ud) as Gr0.
    destruct (create_user uuid now (between d) ud) as [d1 id1].
    destruct (create_user uuid now d ud) as [d2 id2].
    cbn [fst snd] in *. change (ud_email ud) with (email user_data) in *.
    split.
    + intros _. split; [eexists; reflexivity |]. split; [exact Gr |].
      intros N. rewrite Gr. now apply nodup_snoc.
    + intros N. rewrite Gr0. now apply nodup_snoc.
Qed.

Lemma register_keeps_emails_unique_unless_raced_witness :
  register_new_user Fixture.toy_crypto (lit "u2") (lit "t2") 0
    Fixture.one_user Fixture.alice
  = (HTTPException 400 (lit "Email already registered"), Fixture.one_user) /\
  (emails (snd (register_new_user Fixture.toy_crypto (lit "u2") (lit "t2") 0
                  Fixture.one_user Fixture.bob))
   = [lit "alice@example.com"; lit "bob@example.com"] /\
   NoDup (emails (snd (register_new_user Fixture.toy_crypto (lit "u2")
                         (lit "t2") 0 Fixture.one_user Fixture.bob)))) /\
  ~ NoDup (emails (snd (register_new_user_among Fixture.toy_crypto (lit "u1")
                          (lit "t1") 0 Fixture.rival_register
                          Fixture.empty_db Fixture.alice))).
Proof.
  split; [| split].
  - apply (register_keeps_emails_unique_unless_raced Fixture.toy_crypto
             (lit "u2") (lit "t2") 0 (fun d => d) Fixture.one_user
             Fixture.alice).
    left. reflexivity.
  - destruct (register_keeps_emails_unique_unless_raced Fixture.toy_crypto
                (lit "u2") (lit "t2") 0 (fun d => d) Fixture.one_user
                Fixture.bob) as [_ [H N]].
    split.
    + apply H. intros [E | []]. discriminate E.
    + apply N. repeat constructor. intros [].
  - destruct (register_keeps_emails_unique_unless_raced Fixture.toy_crypto
                (lit "u1") (lit "t1") 0 Fixture.rival_register
                Fixture.empty_db Fixture.alice) as [_ [H _]].
    destruct (H (fun F => F)) as [_ [_ U]].
    intros D. apply (proj1 (U ltac:(repeat constructor; intros [])) D).
    left. reflexivity.
Defined.






(** X23.  [authenticate_user] returns a user only if that user is stored under
    the given address and the hash of the given password equals the stored
    hash; for an unknown address it returns [False]. *)
Theorem authentication_is_sound (K : crypto) (d : db) (email password : str) :
  (forall u, authenticate_user K d email password = Some u ->
     In u (_read_file (users_file d)) /\
     ud_email (u_data u) = email /\
     sha256_hex K password = ud_hashed_password (u_data u)) /\
  (~ In email (emails d) -> authenticate_user K d email password = None).
Proof.
  unfold authenticate_user. split.
  - intros u. destruct (get_user_by_email d email) as [v|] eqn:G;
      [|discriminate].
    unfold get_user_by_email in G. apply find_some in G as [Hin E].
    apply str_eqb_eq in E. unfold verify_password.
    destruct (str_eqb _ _) eqn:V; [|discriminate].
    apply str_eqb_eq in V. cbn. intros H. injection H as <-. now repeat split.
  - intros H. apply get_user_by_email_none in H. now rewrite H.
Qed.

(** X24.  [get_current_user] returns a user only if the token decodes and its
    subject is the id of that stored user, and then it does return that user;
    a token that fails to decode, has no subject or names no stored user is
    answered with HTTP 401, and no other status is ever produced; any other
    exception of the decoder is passed on. *)
Theorem current_user_is_the_token_subject (K : crypto) (d : db) (token : str) :
  (forall u, get_current_user K d token = Return u ->
     In u (_read_file (users_file d)) /\
     jwt_decode K token = Decoded (Some (u_id u))) /\
  (forall status detail,
     get_current_user K d token = HTTPException status detail ->
     status = 401%Z) /\
  (jwt_decode K token = JWTError ->
   get_current_user K d token = credentials_exception) /\
  (jwt_decode K token = Decoded None ->
   get_current_user K d token = credentials_exception) /\
  (forall user_id, jwt_decode K token = Decoded (Some user_id) ->
     get_user_by_id d user_id = None ->
     get_current_user K d token = credentials_exception) /\
  (forall user_id u, jwt_decode K token = Decoded (Some user_id) ->
     get_user_by_id d user_id = Some u ->
     get_current_user K d token = Return u) /\
  (forall e, jwt_decode K token = OtherError e ->
     get_current_user K d token = Raised e).
Proof.
  unfold get_current_user, credentials_exception.
  destruct (jwt_decode K token) as [[user_id|]| |e] eqn:J.
  - destruct (get_user_by_id d user_id) as [u|] eqn:G.
    + split.
      { intros u' H. injection H as <-.
        unfold get_user_by_id in G. apply find_some in G as [Hin E].
        apply str_eqb_eq in E. split; [exact Hin | now rewrite E]. }
      split; [discriminate |]. split; [discriminate |].
      split; [discriminate |]. split.
      { intros i Hi. injection Hi as <-. congruence. }
      split; [|discriminate].
      intros i u' Hi. injection Hi as <-. rewrite G. congruence.
    + split; [discriminate |]. split.
      { intros s dt H. now injection H as <- _. }
      split; [discriminate |]. split; [discriminate |]. split.
      { intros i Hi. injection Hi as <-. now rewrite G. }
      split; [|discriminate].
      intros i u' Hi. injection Hi as <-. rewrite G. discriminate.
  - split; [discriminate |]. split.
    { intros s dt H. now injection H as <- _. }
    repeat split; try discriminate; reflexivity.
  - split; [discriminate |]. split.
    { intros s dt H. now injection H as <- _. }
    repeat split; try discriminate; reflexivity.
  - repeat split; try discriminate. intros e' H. now injection H as <-.
Qed.

(** X25.  After [delete_user] a token of the deleted user is refused with HTTP
    401, though it still decodes; the deletion answers [True] exactly when the
    user existed, and leaves every other user in place. *)
Theorem deleted_user_token_is_refused (K : crypto) (d : db)
    (user_id token : str) :
  jwt_decode K token = Decoded (Some user_id) ->
  let d' := fst (delete_user d user_id) in
  get_current_user K d' token = credentials_exception /\
  (snd (delete_user d user_id) = true <-> get_user_by_id d user_id <> None) /\
  (forall other, other <> user_id ->
     get_user_by_id d' other = get_user_by_id d other).
Proof.
  intros J d'. subst d'. unfold get_current_user. rewrite J.
  unfold delete_user, get_user_by_id.
  set (users := _read_file (users_file d)).
  set (keep := fun u => negb (str_eqb (u_id u) user_id)).
  assert (Gone : find (fun u => str_eqb (u_id u) user_id) (filter keep users)
                 = None).
  { apply find_none_iff. intros x Hin. apply filter_In in Hin as [_ Kx].
    unfold keep in Kx. now destruct (str_eqb (u_id x) user_id). }
  destruct (List.length (filter keep users) =? List.length users) eqn:L;
    cbn [negb fst snd users_file _read_file _write_file]; fold users.
  - apply Nat.eqb_eq in L.
    assert (N : find (fun u => str_eqb (u_id u) user_id) users = None).
    { apply find_none_iff. intros x Hin.
      pose proof (proj1 (filter_length_all keep users) L x Hin) as Kx.
      unfold keep in Kx. now destruct (str_eqb (u_id x) user_id). }
    rewrite N. split; [reflexivity |].
    split; [split; [discriminate | congruence] | reflexivity].
  - apply Nat.eqb_neq in L. rewrite Gone. split; [reflexivity |]. split.
    + split; [intros _ | reflexivity]. intros N. apply L.
      apply filter_length_all. intros x Hin.
      pose proof (proj1 (find_none_iff _ _) N x Hin) as Kx.
      unfold keep. now rewrite Kx.
    + intros other Ne. apply find_filter_disjoint. intros x Q.
      apply str_eqb_eq in Q. unfold keep.
      destruct (str_eqb (u_id x) user_id) eqn:E; [|reflexivity].
      apply str_eqb_eq in E. congruence.
Qed.

Lemma deleted_user_token_is_refused_witness :
  get_current_user Fixture.toy_crypto
    (fst (delete_user Fixture.one_user (lit "u1"))) (lit "jwt:u1")
  = credentials_exception.
Proof.
  apply (deleted_user_token_is_refused Fixture.toy_crypto Fixture.one_user
           (lit "u1") (lit "jwt:u1")).
  reflexivity.
Defined.


(** ** The server routes *)

Lemma probe_without_credential (E : env) (server : ServerCreate) (w : world) :
  SSHManager.supplied (credential server) = None ->
  Routes.probe E server w
  = (inr false,
     World (trace w ++ [EvCreate (next_client w); EvSetPolicy (next_client w);
                        EvClose (next_client w)])
           (S (next_client w))
           (filter (fun c' => negb (c' =? next_client w))
                   (next_client w :: open_clients w))).
Proof.
  unfold credential, Routes.probe. intros H. destruct w as [t0 n o].
  destruct (use_password server); cbn [negb]; unfold_run; rewrite H;
    cbn [SSHManager.supplied]; unfold_run; now rewrite <- !app_assoc.
Qed.

(** X26.  POST /api/servers stores a server exactly when the connection probe
    succeeded: it then answers with the new id, the store is the one
    [create_server] produces for the caller, and one "added" notification is
    scheduled; in every other case the store and the scheduled notifications
    are what they were. *)
Theorem server_is_stored_iff_probe_succeeds (E : env) (C : Codec.codec)
    (uuid now1 now2 : str) (user : user_row) (server : ServerCreate)
    (s : Routes.site) :
  let r := Routes.create_server E C uuid now1 now2 user server s in
  ((exists id, fst r = Return id) <->
   fst (Routes.probe E server (Routes.world s)) = inr true) /\
  (forall id, fst r = Return id ->
     id = uuid /\
     Routes.store (snd r)
     = fst (Database.create_server C uuid now1 now2 (Routes.store s)
              (u_id user) server) /\
     Routes.scheduled (snd r)
     = Routes.scheduled s
       ++ [(ud_email (u_data user), name server, lit "added")]) /\
  ((forall id, fst r <> Return id) ->
   Routes.store (snd r) = Routes.store s /\
   Routes.scheduled (snd r) = Routes.scheduled s).
Proof.
  intros r. subst r. unfold Routes.create_server.
  destruct (use_password server
            && match SSHManager.supplied (password server) with
               | Some _ => false
               | None => true
               end) eqn:G.
  - apply andb_true_iff in G as [U P].
    assert (N : SSHManager.supplied (credential server) = None).
    { unfold credential. rewrite U.
      now destruct (SSHManager.supplied (password server)). }
    rewrite (probe_without_credential E server _ N). cbn [fst snd].
    split; [split; [intros [id H] | intros H]; discriminate |].
    split; [discriminate | now split].
  - destruct (Routes.probe E server (Routes.world s)) as [[e|[|]] w'];
      cbn [fst snd Routes.store Routes.scheduled].
    + split; [split; [intros [id H] | intros H]; discriminate |].
      split; [discriminate | now split].
    + split; [split; [intros _; reflexivity | intros _; now exists uuid] |].
      split; [intros id H; now injection H as <- |].
      intros H. now specialize (H uuid).
    + split; [split; [intros [id H] | intros H]; discriminate |].
      split; [discriminate | now split].
Qed.

(** X27.  A server whose selected credential (the password under password
    authentication, the key otherwise) is absent or empty is never stored: the
    route answers HTTP 400, writes nothing, schedules nothing, and makes no
    call that reaches the network. *)
Theorem server_without_credential_is_refused (E : env) (C : Codec.codec)
    (uuid now1 now2 : str) (user : user_row) (server : ServerCreate)
    (s : Routes.site) :
  SSHManager.supplied (credential server) = None ->
  let r := Routes.create_server E C uuid now1 now2 user server s in
  (exists detail, fst r = HTTPException 400 detail) /\
  Routes.store (snd r) = Routes.store s /\
  Routes.scheduled (snd r) = Routes.scheduled s /\
  filter is_network (trace (Routes.world (snd r)))
  = filter is_network (trace (Routes.world s)).
Proof.
  intros N r. subst r. unfold Routes.create_server.
  destruct (use_password server
            && match SSHManager.supplied (password server) with
               | Some _ => false
               | None => true
               end) eqn:G.
  - cbn [fst snd]. split; [eauto | now repeat split].
  - rewrite (probe_without_credential E server _ N).
    cbn [fst snd Routes.store Routes.scheduled Routes.world trace].
    split; [eauto |]. split; [reflexivity |]. split; [reflexivity |].
    rewrite filter_app. cbn. apply app_nil_r.
Qed.

Lemma server_without_credential_is_refused_witness :
  exists detail,
    fst (Routes.create_server Sample.env_up base64_utf8 (lit "id-1")
           (lit "t1") (lit "t2") Fixture.alice_row Fixture.keyless
           Fixture.empty_site)
    = HTTPException 400 detail.
Proof.
  apply (server_without_credential_is_refused Sample.env_up base64_utf8
           (lit "id-1") (lit "t1") (lit "t2") Fixture.alice_row
           Fixture.keyless Fixture.empty_site).
  reflexivity.
Defined.


(** X28.  DELETE /api/servers/{id} touches no SSH state and ends in one of
    four ways, each with its condition.  A look-up that raises is passed on
    and a server the caller does not own gives 404, both with nothing
    changed.  A server that was found and is still stored when
    [db.delete_server] reads the file is deleted: the route answers
    "Server deleted successfully", the caller's look-up finds nothing
    afterwards, and one "deleted" notification carries the server's name.  A
    server that was found and that another request removed before
    [db.delete_server] read the file gives HTTP 500 "Failed to delete server"
    with nothing written and no notification.  With no request in between the
    500 arm cannot be reached: the route answers 404 or succeeds, or passes
    on what the look-up raised. *)
Theorem delete_route_outcomes (C : Codec.codec) (between : db -> db)
    (user : user_row) (sid : str) (s : Routes.site) :
  let r := Routes.delete_server C between user sid s in
  let uid := u_id user in
  let later := between (Routes.store s) in
  Routes.world (snd r) = Routes.world s /\
  (forall e, get_server C (Routes.store s) sid uid = inl e ->
     r = (Raised e, s)) /\
  (get_server C (Routes.store s) sid uid = inr None ->
     r = (HTTPException 404 (lit "Server not found"), s)) /\
  (forall row, get_server C (Routes.store s) sid uid = inr (Some row) ->
     (find (is_server sid uid) (_read_file (servers_file later)) <> None ->
      r = (Return (lit "Server deleted successfully"),
           Routes.Site (Routes.world s)
             (fst (Database.delete_server later sid uid))
             (Routes.scheduled s
              ++ [(ud_email (u_data user), name (s_data row),
                   lit "deleted")])) /\
      snd (Database.delete_server later sid uid) = true /\
      get_server C (Routes.store (snd r)) sid uid = inr None) /\
     (find (is_server sid uid) (_read_file (servers_file later)) = None ->
      r = (HTTPException 500 (lit "Failed to delete server"),
           Routes.Site (Routes.world s) later (Routes.scheduled s)))) /\
  ((forall d, between d = d) ->
   (forall status detail, fst r = HTTPException status detail ->
      status = 404%Z /\ snd r = s /\
      get_server C (Routes.store s) sid uid = inr None) /\
   (forall msg, fst r = Return msg ->
      msg = lit "Server deleted successfully" /\
      get_server C (Routes.store (snd r)) sid uid = inr None /\
      exists row,
        get_server C (Routes.store s) sid uid = inr (Some row) /\
        Routes.scheduled (snd r)
        = Routes.scheduled s
          ++ [(ud_email (u_data user), name (s_data row), lit "deleted")])).
Proof.
  intros r uid later. subst r uid later. unfold Routes.delete_server.
  destruct (get_server C (Routes.store s) sid (u_id user)) as [e|[row|]] eqn:G.
  - cbn [fst snd]. split; [reflexivity |].
    split; [intros e' H; now injection H as <- |].
    split; [discriminate |]. split; [discriminate |].
    intros _. split; discriminate.
  - pose proof (delete_flag sid (u_id user)
                  (_read_file (servers_file (between (Routes.store s)))))
      as Flag.
    pose proof (delete_clears sid (u_id user)
                  (_read_file (servers_file (between (Routes.store s)))))
      as Gone.
    unfold Database.delete_server.
    destruct (negb (_ =? _)) eqn:L;
      cbn [negb fst snd Routes.world Routes.store Routes.scheduled].
    + split; [reflexivity |]. split; [discriminate |]. split; [discriminate |].
      assert (After : get_server C
                (Db (users_file (between (Routes.store s)))
                    (_write_file
                       (filter (fun s0 => negb (is_server sid (u_id user) s0))
                          (_read_file
                             (servers_file (between (Routes.store s))))))
                    (logs_file (between (Routes.store s))))
                sid (u_id user) = inr None).
      { unfold get_server. cbn [servers_file _read_file _write_file].
        now rewrite Gone. }
      split.
      * intros row' H. injection H as <-. split.
        -- intros _. now repeat split.
        -- intros N. exfalso. apply (proj1 Flag eq_refl). exact N.
      * intros _. split; [discriminate |].
        intros msg H. injection H as <-. split; [reflexivity |].
        split; [exact After |]. now exists row.
    + assert (N : find (is_server sid (u_id user))
                    (_read_file (servers_file (between (Routes.store s))))
                  = None).
      { destruct (find _ _) eqn:F; [|reflexivity].
        assert (T : false = true) by (apply Flag; discriminate).
        discriminate. }
      split; [reflexivity |]. split; [discriminate |]. split; [discriminate |].
      split.
      * intros row' H. injection H as <-. split.
        -- intros H. contradiction.
        -- intros _. reflexivity.
      * intros Id. exfalso. rewrite Id in N.
        unfold get_server in G. rewrite N in G. discriminate.
  - cbn [fst snd]. split; [reflexivity |]. split; [discriminate |].
    split; [reflexivity |]. split; [discriminate |].
    intros _. split; [|discriminate].
    intros status detail H. injection H as <- _. now repeat split.
Qed.

Lemma delete_route_outcomes_witness :
  let start := Routes.Site initial Fixture.one_server [] in
  fst (Routes.delete_server base64_utf8 (fun d => d) Fixture.alice_row
         (lit "id-1") start)
  = Return (lit "Server deleted successfully") /\
  Routes.delete_server base64_utf8 Fixture.rival_delete Fixture.alice_row
    (lit "id-1") start
  = (HTTPException 500 (lit "Failed to delete server"),
     Routes.Site initial (Fixture.rival_delete Fixture.one_server) []) /\
  Routes.delete_server base64_utf8 (fun d => d) Fixture.mallory_row
    (lit "id-1") start
  = (HTTPException 404 (lit "Server not found"), start).
Proof.
  split; [| split].
  - destruct (delete_route_outcomes base64_utf8 (fun d => d) Fixture.alice_row
                (lit "id-1") (Routes.Site initial Fixture.one_server []))
      as [_ [_ [_ [H _]]]].
    destruct (H _ eq_refl) as [Hs _].
    destruct Hs as [Hr _]; [discriminate |].
    exact (f_equal fst Hr).
  - destruct (delete_route_outcomes base64_utf8 Fixture.rival_delete
                Fixture.alice_row (lit "id-1")
                (Routes.Site initial Fixture.one_server []))
      as [_ [_ [_ [H _]]]].
    destruct (H _ eq_refl) as [_ Hf].
    exact (Hf eq_refl).
  - destruct (delete_route_outcomes base64_utf8 (fun d => d)
                Fixture.mallory_row (lit "id-1")
                (Routes.Site initial Fixture.one_server []))
      as [_ [_ [H _]]].
    exact (H eq_refl).
Defined.

(** X29.  A caller cannot run a command on a server that is not theirs: when
    every stored server of that id belongs to someone else (or there is none),
    the execute route answers 404 and the world is untouched -- no client, no
    connection, no command. *)
Theorem foreign_server_cannot_be_used (E : env) (C : Codec.codec) (d : db)
    (user : user_row) (sid raw : str) (w : world) :
  (forall row, In row (_read_file (servers_file d)) ->
     s_id row = sid -> s_user_id row <> u_id user) ->
  Routes.execute E C d user sid raw w
  = (Return (App.HTTPException 404 (lit "Server not found")), w) /\
  get_server C d sid (u_id user) = inr None.
Proof.
  intros H.
  assert (N : find (is_server sid (u_id user)) (_read_file (servers_file d))
              = None).
  { apply find_none_iff. intros row Hin.
    destruct (is_server sid (u_id user) row) eqn:I; [|reflexivity].
    apply is_server_iff in I as [I1 I2]. exfalso. exact (H row Hin I1 I2). }
  unfold Routes.execute, get_server. rewrite N. now split.
Qed.

Lemma foreign_server_cannot_be_used_witness :
  Routes.execute Sample.env_up base64_utf8 Fixture.one_server
    Fixture.mallory_row (lit "id-1") (lit "ls -la /home") initial
  = (Return (App.HTTPException 404 (lit "Server not found")), initial).
Proof.
  apply (foreign_server_cannot_be_used Sample.env_up base64_utf8
           Fixture.one_server Fixture.mallory_row (lit "id-1")
           (lit "ls -la /home") initial).
  intros row [<- | []] _. discriminate.
Defined.

